(** * Verification of scripts/replace_placeholders.py

    A shallow embedding of the placeholder replacement script of the
    cpp-template project, and the properties of its validation, rule
    derivation, replacement engine, backup step and command-line driver.

    Python strings are sequences of Unicode code points: a character is a
    code point [N], a [str] is a list of them.  The file system is a finite
    map from paths to nodes; the script's methods are state transformers
    over a [world] that can return, raise an exception or exit. *)

From Stdlib Require Import NArith String Ascii.
From stdpp Require Import gmap strings list fin_maps.

Local Open Scope N_scope.

(** ** Python strings *)

Module Py.

Abbreviation char := N.
Abbreviation str := (list N).

(** A string literal of the source, as code points. *)
Fixpoint u (s : string) : str :=
  match s with
  | EmptyString => []
  | String a r => N_of_ascii a :: u r
  end.

Definition hyphen : char := 45.
Definition underscore : char := 95.
Definition newline : char := 10.

Definition is_lower (c : char) : bool := (97 <=? c) && (c <=? 122).
Definition is_upper (c : char) : bool := (65 <=? c) && (c <=? 90).
Definition is_digit (c : char) : bool := (48 <=? c) && (c <=? 57).
Definition is_ascii (c : char) : bool := c <? 128.

(** [c.upper()] and [c.lower()] of one character.  Exact on ASCII, which is
    all the script ever passes (a validated name, see
    [validated_name_chars]); other code points are left as they are. *)
Definition upper_char (c : char) : char := if is_lower c then c - 32 else c.
Definition lower_char (c : char) : char := if is_upper c then c + 32 else c.

(** [s.upper()], [s.lower()] *)
Definition upper (s : str) : str := map upper_char s.
Definition lower (s : str) : str := map lower_char s.

(** [s.capitalize()]: the first character upper-cased, every other
    character lower-cased. *)
Definition capitalize (s : str) : str :=
  match s with
  | [] => []
  | c :: r => upper_char c :: lower r
  end.

(** [sep.join(parts)] for the empty separator. *)
Definition join (parts : list str) : str := concat parts.

Definition eqb (a b : str) : bool := bool_decide (a = b).

(** [s.startswith(p)] *)
Fixpoint startswith (p s : str) : bool :=
  match p, s with
  | [], _ => true
  | _ :: _, [] => false
  | a :: p', b :: s' => (a =? b) && startswith p' s'
  end.

(** [p in s] *)
Fixpoint contains (p s : str) : bool :=
  startswith p s || match s with [] => false | _ :: s' => contains p s' end.

(** [s.replace(old, new)] for a non-empty [old]: a scan from the left; at
    an occurrence of [old] the text [new] is emitted and the scan goes on
    after the occurrence, otherwise one character is copied.  The fuel is
    the number of characters still to be scanned. *)
Fixpoint replace_scan (fuel : nat) (old new s : str) : str :=
  match fuel with
  | O => s
  | S fuel' =>
      match s with
      | [] => []
      | c :: s' =>
          if startswith old s
          then new ++ replace_scan fuel' old new (drop (length old) s)
          else c :: replace_scan fuel' old new s'
      end
  end.

(** [s.replace(old, new)].  With an empty [old], Python puts [new] before
    every character and at the end. *)
Definition replace (old new s : str) : str :=
  match old with
  | [] => new ++ flat_map (fun c => c :: new) s
  | _ :: _ => replace_scan (length s) old new s
  end.

(** [re.split(r'[-_]', s)]: the pieces between the separators, empty
    pieces included. *)
Definition is_sep (c : char) : bool := (c =? hyphen) || (c =? underscore).

Fixpoint re_split_sep (s : str) : list str :=
  match s with
  | [] => [[]]
  | c :: s' =>
      if is_sep c then [] :: re_split_sep s'
      else match re_split_sep s' with
           | [] => [[c]]
           | w :: ws => (c :: w) :: ws
           end
  end.

End Py.

Import Py.

(** ** The name validator and the rule deriver *)

(** The messages of the three [ValueError]s of [_validate_project_name]. *)
Inductive ValueError :=
| NameEmpty          (* "Project name cannot be empty" *)
| NameBadPattern     (* "Project name must start with a letter and ..." *)
| NameTooLong.       (* "Project name is too long (max 50 characters)" *)

Inductive checked (A : Type) :=
| Valid (a : A)
| Invalid (e : ValueError).
Arguments Valid {A} a.
Arguments Invalid {A} e.

(** The character classes of the pattern [^[a-zA-Z][a-zA-Z0-9_-]*$]. *)
Definition class_letter (c : char) : bool := is_lower c || is_upper c.
Definition class_name (c : char) : bool :=
  is_lower c || is_upper c || is_digit c || (c =? underscore) || (c =? hyphen).

(** The part [[a-zA-Z0-9_-]*$] of the pattern, tried on the rest of the
    name: either one more character of the class and the same again, or
    the end anchor.  Without the MULTILINE flag, [$] matches at the end of
    the string and also just before a newline that ends the string. *)
Fixpoint match_body (s : str) : bool :=
  match s with
  | [] => true
  | c :: t => (class_name c && match_body t)
              || ((c =? newline) && bool_decide (t = []))
  end.

(** [re.match(r'^[a-zA-Z][a-zA-Z0-9_-]*$', name)] is not [None]. *)
Definition re_match_name (name : str) : bool :=
  match name with
  | [] => false
  | c :: t => class_letter c && match_body t
  end.

Definition _validate_project_name (name : str) : checked unit :=
  if bool_decide (name = []) then Invalid NameEmpty
  else if negb (re_match_name name) then Invalid NameBadPattern
  else if (50 <? length name)%nat then Invalid NameTooLong
  else Valid tt.

Definition _to_camel_case (name : str) : str :=
  let components := re_split_sep name in
  join (map capitalize components).

Definition _generate_replacements (new_name : str) : list (str * str) :=
  let replacements := [] in
  let replacements := replacements ++ [(u "cpp-template", new_name)] in
  let replacements :=
    replacements ++ [(u "cpp_template", replace (u "-") (u "_") new_name)] in
  let replacements := replacements ++ [(u "CPP-TEMPLATE", upper new_name)] in
  let replacements :=
    replacements
      ++ [(u "CPP_TEMPLATE", upper (replace (u "-") (u "_") new_name))] in
  let camel_case := _to_camel_case new_name in
  let replacements := replacements ++ [(u "CppTemplate", camel_case)] in
  let namespace_name := lower (replace (u "-") (u "_") new_name) in
  let replacements := replacements ++ [(u "cpp_template", namespace_name)] in
  let replacements :=
    replacements
      ++ [(u "https://github.com/your-username/cpp-template",
           u "https://github.com/your-username/" ++ new_name)] in
  replacements.

(** The loop [for old, new in self.replacements: content =
    content.replace(old, new)] of [process_file]. *)
Definition apply_replacements (rules : list (str * str)) (content : str) : str :=
  fold_left (fun content rule => replace rule.1 rule.2 content) rules content.

(** ** The file system and the effects of the script *)

(** A path below the project root, as its components; [[]] is the root. *)
Abbreviation path := (list str).

(** What a file holds: the text that reading it as UTF-8 returns, or bytes
    that do not decode.  A text is taken as [f.read()] returns it and as
    [f.write] receives it; the encoding and the newline translation of
    text mode are not part of the model. *)
Inductive payload :=
| Text (s : str)
| NotUtf8.

Record file := File {
  data : payload;
  mtime : nat;
  readable : bool;
  writable : bool
}.

Inductive node :=
| Regular (f : file)
| Dir.

#[global] Instance payload_eq_dec : EqDecision payload.
Proof. solve_decision. Defined.

#[global] Instance file_eq_dec : EqDecision file.
Proof. solve_decision. Defined.

#[global] Instance node_eq_dec : EqDecision node.
Proof. solve_decision. Defined.

Inductive exn :=
| FileNotFoundError
| FileExistsError
| PermissionError
| IsADirectoryError
| NotADirectoryError
| UnicodeDecodeError
| EOFError
| NameError (e : ValueError).

Record Stats := mkStats {
  processed : nat;
  updated : nat;
  errors : nat
}.

(** The messages the script prints, one constructor for each [print] (the
    header and the closing hints of the summary are one message each). *)
Inductive line :=
| StartingLine (name : str)
| WorkingDirectoryLine
| CreatingBackupLine
| BackedUpLine (p : path)
| ReplacingLine (name : str)
| WarningNotFoundLine (p : path)
| UpdatedLine (p : path)
| NoChangesLine (p : path)
| ErrorProcessingLine (p : path) (e : exn)
| CheckingDirectoriesLine
| RenamedDirectoryLine (name : str)
| UpdatedIncludeLine (p : path)
| ErrorUpdatingLine (p : path) (e : exn)
| SummaryHeaderLine (name : str)
| FilesProcessedLine (n : nat)
| FilesUpdatedLine (n : nat)
| ErrorsEncounteredLine (n : nat)
| BackupCreatedLine
| RuleLine (old new : str)
| NextStepsLine
| RemoveBackupLine
| CompletedLine
| ErrorDuringLine (e : exn)
| BackupAvailableLine
| RootMissingLine
| NoCMakeListsLine
| AlreadyUsesLine (name : str)
| AbortedLine
| DryRunLine
| WouldApplyLine
| WouldProcessLine (n : nat).

Record world := World {
  files : gmap path node;   (* the tree below the project root *)
  now : nat;                (* the clock that stamps written files *)
  stdin : list str;         (* the lines the operator will type *)
  out : list line           (* what has been printed, oldest first *)
}.

(** How a call ends: it returns, raises an [Exception], or leaves through
    [sys.exit] ([SystemExit] is not an [Exception]). *)
Inductive res (A : Type) :=
| Ret (a : A)
| Raise (e : exn)
| Exit (code : nat).
Arguments Ret {A} a.
Arguments Raise {A} e.
Arguments Exit {A} code.

Definition io (A : Type) : Type := world -> res A * world.

Definition ret {A} (a : A) : io A := fun w => (Ret a, w).
Definition raise {A} (e : exn) : io A := fun w => (Raise e, w).
Definition sys_exit {A} (code : nat) : io A := fun w => (Exit code, w).

Definition bind {A B} (m : io A) (k : A -> io B) : io B :=
  fun w =>
    match m w with
    | (Ret a, w') => k a w'
    | (Raise e, w') => (Raise e, w')
    | (Exit c, w') => (Exit c, w')
    end.

(** [try: body except Exception as e: handler] *)
Definition try_except {A} (body : io A) (handler : exn -> io A) : io A :=
  fun w =>
    match body w with
    | (Raise e, w') => handler e w'
    | r => r
    end.

Notation "'do' x <- m ; k" := (bind m (fun x => k))
  (at level 10, x name, m at level 100, k at level 200).
Notation "'step' m ; k" := (bind m (fun _ => k))
  (at level 10, m at level 100, k at level 200).

(** The world after one more printed line. *)
Definition say (l : line) (w : world) : world :=
  World (files w) (now w) (stdin w) (out w ++ [l]).

Definition print (l : line) : io unit := fun w => (Ret tt, say l w).

(** [input(prompt)] *)
Definition input : io str :=
  fun w =>
    match stdin w with
    | [] => (Raise EOFError, w)
    | l :: rest => (Ret l, World (files w) (now w) rest (out w))
    end.

Definition set_files (m : gmap path node) (w : world) : world :=
  World m (now w) (stdin w) (out w).

(** [p.parent] *)
Definition parent (p : path) : path := removelast p.

(** [p.exists()] *)
Definition path_exists (p : path) : io bool :=
  fun w => (Ret (bool_decide (is_Some (files w !! p))), w).

(** [open(p, 'r', encoding='utf-8')] followed by [f.read()] *)
Definition read_text (p : path) : io str :=
  fun w =>
    match files w !! p with
    | None => (Raise FileNotFoundError, w)
    | Some Dir => (Raise IsADirectoryError, w)
    | Some (Regular f) =>
        if negb (readable f) then (Raise PermissionError, w)
        else match data f with
             | Text s => (Ret s, w)
             | NotUtf8 => (Raise UnicodeDecodeError, w)
             end
    end.

(** [open(p, 'w', encoding='utf-8')] followed by [f.write(s)]: an existing
    file keeps its permissions and gets the new text and the time of the
    write; a missing one is created in its directory. *)
Definition write_text (p : path) (s : str) : io unit :=
  fun w =>
    match files w !! p with
    | Some Dir => (Raise IsADirectoryError, w)
    | Some (Regular f) =>
        if negb (writable f) then (Raise PermissionError, w)
        else (Ret tt,
              World (<[p := Regular (File (Text s) (now w) (readable f) (writable f))]>
                       (files w))
                    (S (now w)) (stdin w) (out w))
    | None =>
        match files w !! parent p with
        | Some Dir =>
            (Ret tt,
             World (<[p := Regular (File (Text s) (now w) true true)]> (files w))
                   (S (now w)) (stdin w) (out w))
        | Some (Regular _) => (Raise NotADirectoryError, w)
        | None => (Raise FileNotFoundError, w)
        end
    end.

(** The paths at or below [d]. *)
Definition below (d : path) (p : path) : bool := bool_decide (d `prefix_of` p).

(** [shutil.rmtree(d)] *)
Definition rmtree (d : path) : io unit :=
  fun w =>
    match files w !! d with
    | None => (Raise FileNotFoundError, w)
    | Some (Regular _) => (Raise NotADirectoryError, w)
    | Some Dir =>
        (Ret tt, set_files (filter (fun kv => below d kv.1 = false) (files w)) w)
    end.

(** [d.mkdir()] *)
Definition mkdir (d : path) : io unit :=
  fun w =>
    match files w !! d with
    | Some _ => (Raise FileExistsError, w)
    | None =>
        match files w !! parent d with
        | Some Dir => (Ret tt, set_files (<[d := Dir]> (files w)) w)
        | Some (Regular _) => (Raise NotADirectoryError, w)
        | None => (Raise FileNotFoundError, w)
        end
    end.

(** [d.mkdir(parents=True, exist_ok=True)]: the directories from the root
    down to [d] are created where they are missing; [todo] holds the
    components of [d] that are left below [done]. *)
Fixpoint mkdir_from (done todo : path) : io unit :=
  fun w =>
    match files w !! done with
    | Some (Regular _) =>
        (Raise (match todo with [] => FileExistsError | _ => NotADirectoryError end),
         w)
    | here =>
        let w' := match here with
                  | None => set_files (<[done := Dir]> (files w)) w
                  | Some _ => w
                  end in
        match todo with
        | [] => (Ret tt, w')
        | c :: todo' => mkdir_from (done ++ [c]) todo' w'
        end
    end.

Definition mkdir_parents (d : path) : io unit := mkdir_from [] d.

(** [shutil.copy2(src, dst)]: the content of [src] with its times and
    permission bits; into [dst] itself, or under the name of [src] when
    [dst] is a directory. *)
Definition copy2 (src dst : path) : io unit :=
  fun w =>
    match files w !! src with
    | None => (Raise FileNotFoundError, w)
    | Some Dir => (Raise IsADirectoryError, w)
    | Some (Regular f) =>
        if negb (readable f) then (Raise PermissionError, w)
        else
          let dst := match files w !! dst with
                     | Some Dir => dst ++ [List.last src []]
                     | _ => dst
                     end in
          match files w !! dst with
          | Some Dir => (Raise IsADirectoryError, w)
          | Some (Regular g) =>
              if negb (writable g) then (Raise PermissionError, w)
              else (Ret tt, set_files (<[dst := Regular f]> (files w)) w)
          | None =>
              match files w !! parent dst with
              | Some Dir => (Ret tt, set_files (<[dst := Regular f]> (files w)) w)
              | Some (Regular _) => (Raise NotADirectoryError, w)
              | None => (Raise FileNotFoundError, w)
              end
          end
    end.

(** [src.rename(dst)], which the script calls only when [dst] does not
    exist: the node at [src] and all below it move under [dst]. *)
Definition rename (src dst : path) : io unit :=
  fun w =>
    match files w !! src, files w !! dst with
    | None, _ => (Raise FileNotFoundError, w)
    | Some _, Some _ => (Raise FileExistsError, w)
    | Some _, None =>
        match files w !! parent dst with
        | Some Dir =>
            let moved := filter (fun kv => below src kv.1 = true) (files w) in
            let kept := filter (fun kv => below src kv.1 = false) (files w) in
            (Ret tt,
             set_files
               (list_to_map
                  (map (fun kv => (dst ++ drop (length src) kv.1, kv.2))
                       (map_to_list moved)) ∪ kept) w)
        | Some (Regular _) => (Raise NotADirectoryError, w)
        | None => (Raise FileNotFoundError, w)
        end
    end.

(** [list(root.rglob(name))]: every path of the tree whose last component
    is [name]. *)
Definition rglob (name : str) : io (list path) :=
  fun w =>
    (Ret (filter (fun p => List.last p [] = name /\ p <> [])
                 (map fst (map_to_list (files w)))), w).

(** [for x in l: body(x)] *)
Fixpoint for_each {A} (l : list A) (body : A -> io unit) : io unit :=
  match l with
  | [] => ret tt
  | x :: rest => step body x; for_each rest body
  end.

(** [if c: body] *)
Definition when (c : bool) (body : io unit) : io unit :=
  if c then body else ret tt.

(** ** The class PlaceholderReplacer *)

Record PlaceholderReplacer := Replacer {
  new_name : str;
  backup : bool;
  backup_dir : path;
  files_to_process : list path;
  replacements : list (str * str)
}.

Definition target_files : list path :=
  [ [u "CMakeLists.txt"];
    [u "README.md"];
    [u "vcpkg.json"];
    [u "tests"; u "CMakeLists.txt"];
    [u "libs"; u "CMakeLists.txt"];
    [u "src"; u "CMakeLists.txt"];
    [u "examples"; u "CMakeLists.txt"];
    [u "docs"; u "CUSTOMIZATION_GUIDE.md"];
    [u "examples"; u "usage_scenarios.cpp"] ].

(** [PlaceholderReplacer(project_root, new_name, backup)]: the name is
    validated before the target list is set and the rules are derived. *)
Definition __init__ (new_name : str) (backup : bool) : checked PlaceholderReplacer :=
  match _validate_project_name new_name with
  | Invalid e => Invalid e
  | Valid _ =>
      Valid (Replacer new_name backup [u ".backup_placeholders"] target_files
               (_generate_replacements new_name))
  end.

(** The body of the loop of [create_backup], for the backup directory
    [backup_dir]. *)
Definition backup_target (backup_dir : path) (file_path : path) : io unit :=
  let full_path := file_path in
  do present <- path_exists full_path;
  when present (
    let backup_path := backup_dir ++ file_path in
    step mkdir_parents (parent backup_path);
    step copy2 full_path backup_path;
    print (BackedUpLine file_path)).

Definition create_backup (self : PlaceholderReplacer) : io unit :=
  if negb (backup self) then ret tt
  else
    step print CreatingBackupLine;
    do present <- path_exists (backup_dir self);
    step when present (rmtree (backup_dir self));
    step mkdir (backup_dir self);
    for_each (files_to_process self) (backup_target (backup_dir self)).

Definition process_file (self : PlaceholderReplacer) (file_path : path) : io bool :=
  do present <- path_exists file_path;
  if negb present then
    step print (WarningNotFoundLine file_path);
    ret false
  else
    try_except (
      do content <- read_text file_path;
      let original_content := content in
      let content := apply_replacements (replacements self) content in
      if negb (eqb content original_content) then
        step write_text file_path content;
        step print (UpdatedLine file_path);
        ret true
      else
        step print (NoChangesLine file_path);
        ret false)
    (fun e =>
      step print (ErrorProcessingLine file_path e);
      ret false).

(** The loop of [process_all_files], with the dictionary [stats] as the
    loop state. *)
Fixpoint process_loop (self : PlaceholderReplacer) (l : list path) (stats : Stats)
  : io Stats :=
  match l with
  | [] => ret stats
  | file_path :: rest =>
      let full_path := file_path in
      let stats := mkStats (processed stats + 1) (updated stats) (errors stats) in
      do changed <- process_file self full_path;
      let stats :=
        if changed
        then mkStats (processed stats) (updated stats + 1) (errors stats)
        else stats in
      process_loop self rest stats
  end.

Definition process_all_files (self : PlaceholderReplacer) : io Stats :=
  step print (ReplacingLine (new_name self));
  let stats := mkStats 0 0 0 in
  process_loop self (files_to_process self) stats.

Definition update_directory_structure (self : PlaceholderReplacer) : io unit :=
  step print CheckingDirectoriesLine;
  let include_old := [u "include"; u "cpp-template"] in
  let include_new := [u "include"; new_name self] in
  do old_present <- path_exists include_old;
  do new_present <- path_exists include_new;
  step when (old_present && negb new_present) (
    step rename include_old include_new;
    print (RenamedDirectoryLine (new_name self)));
  do cmake_files <- rglob (u "CMakeLists.txt");
  for_each cmake_files (fun cmake_file =>
    try_except (
      do content <- read_text cmake_file;
      let old_include_ref := u "include/cpp-template" in
      let new_include_ref := u "include/" ++ new_name self in
      when (contains old_include_ref content) (
        let content := replace old_include_ref new_include_ref content in
        step write_text cmake_file content;
        print (UpdatedIncludeLine cmake_file)))
    (fun e => print (ErrorUpdatingLine cmake_file e))).

Definition generate_summary_report (self : PlaceholderReplacer) (stats : Stats)
  : io unit :=
  step print (SummaryHeaderLine (new_name self));
  step print (FilesProcessedLine (processed stats));
  step print (FilesUpdatedLine (updated stats));
  step print (ErrorsEncounteredLine (errors stats));
  step when (backup self) (print BackupCreatedLine);
  step for_each (replacements self) (fun rule => print (RuleLine rule.1 rule.2));
  step print NextStepsLine;
  when (backup self) (print RemoveBackupLine).

(** The body of the [try] of [run], from the replacement pass on. *)
Definition run_after_backup (self : PlaceholderReplacer) : io unit :=
  do stats <- process_all_files self;
  step update_directory_structure self;
  step generate_summary_report self stats;
  print CompletedLine.

(** The [except Exception] handler of [run]. *)
Definition run_failed (self : PlaceholderReplacer) (e : exn) : io unit :=
  step print (ErrorDuringLine e);
  do present <- path_exists (backup_dir self);
  step when (backup self && present) (print BackupAvailableLine);
  sys_exit 1.

Definition run (self : PlaceholderReplacer) : io unit :=
  step print (StartingLine (new_name self));
  step print WorkingDirectoryLine;
  try_except (
    step create_backup self;
    run_after_backup self)
  (run_failed self).

(** ** The command line *)

Record Args := mkArgs {
  project_name : str;
  no_backup : bool;
  dry_run : bool
}.

(** [main()], after [parse_args]; the world is the tree below
    [args.project_root].  A [ValueError] of the constructor is not caught
    here and ends the process like any uncaught exception. *)
Definition main (args : Args) : io unit :=
  do root_present <- path_exists [];
  if negb root_present then
    step print RootMissingLine;
    sys_exit 1
  else
    let main_cmake := [u "CMakeLists.txt"] in
    do cmake_present <- path_exists main_cmake;
    if negb cmake_present then
      step print NoCMakeListsLine;
      sys_exit 1
    else
      do cmake_content <- read_text main_cmake;
      step when (contains (u "project(" ++ project_name args) cmake_content) (
        step print (AlreadyUsesLine (project_name args));
        do response <- input;
        when (negb (eqb (lower response) (u "y"))) (
          step print AbortedLine;
          sys_exit 0));
      step when (dry_run args) (print DryRunLine);
      let backup := if dry_run args then false else negb (no_backup args) in
      match __init__ (project_name args) backup with
      | Invalid e => raise (NameError e)
      | Valid replacer =>
          if dry_run args then
            step print WouldApplyLine;
            step for_each (replacements replacer)
                   (fun rule => print (RuleLine rule.1 rule.2));
            print (WouldProcessLine (length (files_to_process replacer)))
          else
            run replacer
      end.

(** The exit status of the process: an uncaught exception gives 1. *)
Definition exit_status (r : res unit) : nat :=
  match r with
  | Ret _ => 0
  | Raise _ => 1
  | Exit code => code
  end.

(** ** The properties as the specification words them *)

(** "a letter, then zero or more letters/digits/hyphen/underscore" *)
Definition well_formed_name (name : str) : Prop :=
  match name with
  | [] => False
  | c :: t => class_letter c = true /\ Forall (fun d => class_name d = true) t
  end.

(** The hyphen/underscore-separated segments of a name, collected from the
    left with the segment being read kept in [cur] (last character first). *)
Fixpoint segments_from (cur : str) (s : str) : list str :=
  match s with
  | [] => [rev cur]
  | c :: t =>
      if is_sep c then rev cur :: segments_from [] t
      else segments_from (c :: cur) t
  end.

Definition segments (name : str) : list str := segments_from [] name.

(** A segment with its first character upper-cased and the remainder left
    untouched. *)
Definition first_upper_rest_untouched (seg : str) : str :=
  match seg with
  | [] => []
  | c :: r => upper_char c :: r
  end.

(** A segment with its first character upper-cased and the remainder
    lower-cased. *)
Definition first_upper_rest_lower (seg : str) : str :=
  match seg with
  | [] => []
  | c :: r => upper_char c :: map lower_char r
  end.

(** The replacement text of rule [i] (counted from 1) for a name. *)
Definition rule_text (i : nat) (name : str) : option str :=
  snd <$> _generate_replacements name !! (i - 1)%nat.

(** The match text of rule [i] (counted from 1). *)
Definition rule_pattern (i : nat) (name : str) : option str :=
  fst <$> _generate_replacements name !! (i - 1)%nat.

(** The world after [write_text] on an existing writable file. *)
Definition written (p : path) (f : file) (s : str) (w : world) : world :=
  World (<[p := Regular (File (Text s) (now w) (readable f) (writable f))]> (files w))
        (S (now w)) (stdin w) (out w).

(** The number of paths of a list that exist in a world. *)
Definition present_count (w : world) (l : list path) : nat :=
  length (filter (fun p => is_Some (files w !! p)) l).

(** ** Worlds to run the script on *)

(** A readable, writable file holding a text, last written at time 0. *)
Definition plain (s : str) : node := Regular (File (Text s) 0 true true).

(** A file whose bytes are not valid UTF-8. *)
Definition undecodable : node := Regular (File NotUtf8 0 true true).

(** A file that may be read but not written. *)
Definition read_only (s : str) : node := Regular (File (Text s) 0 true false).

Definition world_of (l : list (path * node)) : world :=
  World (list_to_map l) 1 [] [].

(** A project tree with three of the nine targets; the README does not
    decode. *)
Definition broken_readme_world : world :=
  world_of
    [ ([], Dir);
      ([u "CMakeLists.txt"], plain (u "project(cpp-template)"));
      ([u "README.md"], undecodable);
      ([u "vcpkg.json"], plain (u "{}")) ].

(** A project tree with a sub-directory and a backup left by an earlier
    run. *)
Definition small_project_world : world :=
  world_of
    [ ([], Dir);
      ([u "CMakeLists.txt"], plain (u "project(cpp-template)"));
      ([u "README.md"], plain (u "# CppTemplate"));
      ([u "tests"], Dir);
      ([u "tests"; u "CMakeLists.txt"], plain (u "add_test(cpp_template)"));
      ([u ".backup_placeholders"], Dir);
      ([u ".backup_placeholders"; u "stale.txt"], plain (u "old")) ].

(** The replacer that [PlaceholderReplacer(root, "my-project", True)]
    constructs. *)
Definition my_project_replacer : PlaceholderReplacer :=
  Replacer (u "my-project") true [u ".backup_placeholders"] target_files
           (_generate_replacements (u "my-project")).

(** A computation that leaves the files and the clock as they are: it may
    only read, print and take input. *)
Definition read_only_io {A} (m : io A) : Prop :=
  forall w, files (m w).2 = files w /\ now (m w).2 = now w.

(** What the backup tree [bdir] of world [w1] holds of the world [w]
    the run started from, once the targets [copied] have been dealt with:
    nothing outside the backup tree has changed; every target of [copied]
    that existed has a copy with its content, times and permissions at the
    same relative path; and the tree holds nothing but these copies and
    the directories that lead to them. *)
Definition backed_up (bdir : path) (copied : list path) (w w1 : world) : Prop :=
  (forall q, below bdir q = false -> files w1 !! q = files w !! q) /\
  files w1 !! bdir = Some Dir /\
  (forall t, t ∈ copied -> is_Some (files w !! t) ->
     files w1 !! (bdir ++ t) = files w !! t) /\
  (forall q, below bdir q = true -> is_Some (files w1 !! q) ->
     q = bdir \/
     exists t, t ∈ copied /\ is_Some (files w !! t) /\
       (q = bdir ++ t \/
        (q `prefix_of` bdir ++ t /\ files w1 !! q = Some Dir))).

(** The conditions on a target list under which the backup tree mirrors
    it: no target is the root or lies in the backup tree, no target occurs
    twice, and no target is a directory above another. *)
Definition mirrorable (bdir : path) (targets : list path) : Prop :=
  Forall (fun t => t <> [] /\ below bdir t = false) targets /\
  NoDup targets /\
  (forall t t', t ∈ targets -> t' ∈ targets -> t `prefix_of` t' -> t = t').

(** The file system is a tree: what exists below the root lies in a
    directory that exists. *)
Definition well_formed_tree (m : gmap path node) : Prop :=
  forall q, q <> [] -> is_Some (m !! q) -> m !! parent q = Some Dir.

(** ** Texts that a rule cannot bring back *)

(** [s] and all its ends, the empty one left out. *)
Fixpoint ends (s : str) : list str :=
  match s with
  | [] => []
  | _ :: t => s :: ends t
  end.

(** A pattern [p] and a replacement text [new] that cannot share
    characters in any text: neither occurs in the other, no end of [p] is
    a beginning of [new], and no end of [new] is a beginning of [p]. *)
Definition no_overlap (p new : str) : bool :=
  negb (contains new p) && negb (contains p new)
  && forallb (fun q => negb (startswith q new)) (ends p)
  && forallb (fun a => negb (startswith a p)) (ends new).

(** A rule list in which no pattern overlaps its own replacement text or
    that of a later rule. *)
Fixpoint settled (rules : list (str * str)) : bool :=
  match rules with
  | [] => true
  | rule :: rest =>
      no_overlap rule.1 rule.2
      && forallb (fun later => no_overlap rule.1 later.2) rest
      && settled rest
  end.

(** No pattern of the rules occurs in the text. *)
Definition free_of (rules : list (str * str)) (s : str) : bool :=
  forallb (fun rule => negb (contains rule.1 s)) rules.

(** The token [cpp_template] overlaps none of the replacement texts of
    rules 2 to 5 of a name. *)
Definition snake_token_settled (name : str) : bool :=
  forallb (fun rule => no_overlap (u "cpp_template") rule.2)
          (take 4 (drop 1 (_generate_replacements name))).

(** The rule list with its sixth rule taken out. *)
Definition without_rule_6 (rules : list (str * str)) : list (str * str) :=
  take 5 rules ++ drop 6 rules.

(** The snake form of a name, and its lower-cased snake form. *)
Definition snake (name : str) : str := replace (u "-") (u "_") name.
Definition lower_snake (name : str) : str := lower (snake name).

(** ** Further definitions: the forms of a name *)

(** The CamelCase form read off in one pass over the name: a separator is
    dropped, the character after a separator (and the first one) is
    upper-cased, every other character is lower-cased.  [start] tells
    whether the next character starts a segment. *)
Fixpoint camel_scan (start : bool) (s : str) : str :=
  match s with
  | [] => []
  | c :: t =>
      if is_sep c then camel_scan true t
      else (if start then upper_char c else lower_char c) :: camel_scan false t
  end.

(** The five placeholder forms that the patterns of the rules are made
    of (the URL of rule 7 holds the first of them). *)
Definition placeholder_forms : list str :=
  [u "cpp-template"; u "cpp_template"; u "CPP-TEMPLATE"; u "CPP_TEMPLATE";
   u "CppTemplate"].

(** The base token [cpp-template] overlaps none of the replacement texts
    of rules 1 to 6 of a name. *)
Definition base_token_settled (name : str) : bool :=
  forallb (fun rule => no_overlap (u "cpp-template") rule.2)
          (take 6 (_generate_replacements name)).

(** The part of [main] that follows the confirmation prompt: the replacer
    is built and shown (dry run) or run. *)
Definition main_after_prompt (args : Args) : io unit :=
  step when (dry_run args) (print DryRunLine);
  let backup := if dry_run args then false else negb (no_backup args) in
  match __init__ (project_name args) backup with
  | Invalid e => raise (NameError e)
  | Valid replacer =>
      if dry_run args then
        step print WouldApplyLine;
        step for_each (replacements replacer)
               (fun rule => print (RuleLine rule.1 rule.2));
        print (WouldProcessLine (length (files_to_process replacer)))
      else
        run replacer
  end.

(** The world after the operator has been asked and has typed
    [response]. *)
Definition asked (name : str) (rest : list str) (w : world) : world :=
  World (files w) (now w) rest (out w ++ [AlreadyUsesLine name]).

(** A computation that does not leave through [sys.exit]. *)
Definition never_exits {A} (m : io A) : Prop :=
  forall w c, (m w).1 <> Exit c.

(** The body of the second loop of [update_directory_structure], for the
    new name [name]. *)
Definition patch_include (name : str) (cmake_file : path) : io unit :=
  try_except (
    do content <- read_text cmake_file;
    let old_include_ref := u "include/cpp-template" in
    let new_include_ref := u "include/" ++ name in
    when (contains old_include_ref content) (
      let content := replace old_include_ref new_include_ref content in
      step write_text cmake_file content;
      print (UpdatedIncludeLine cmake_file)))
  (fun e => print (ErrorUpdatingLine cmake_file e)).

(** A path that [rglob("CMakeLists.txt")] can return. *)
Definition is_cmake (q : path) : Prop :=
  List.last q [] = u "CMakeLists.txt" /\ q <> [].

(** What the second loop of [update_directory_structure] makes of the
    node of a path: a file that can be read and written and whose text
    holds the old include path gets the text with the new include path
    (and the time of the write); anything else stays as it is. *)
Definition include_patched (name : str) (before after : option node) : Prop :=
  match before with
  | Some (Regular f) =>
      match data f with
      | Text s =>
          if readable f && writable f && contains (u "include/cpp-template") s
          then exists t,
                 after = Some (Regular
                   (File (Text (replace (u "include/cpp-template")
                                        (u "include/" ++ name) s))
                         t (readable f) (writable f)))
          else after = before
      | NotUtf8 => after = before
      end
  | _ => after = before
  end.

(** What [update_directory_structure] makes of a path that it does not
    move: a CMakeLists.txt gets its include path patched, any other path
    stays as it is. *)
Definition include_updated (name : str) (q : path) (before after : option node)
  : Prop :=
  (is_cmake q -> include_patched name before after) /\
  (~ is_cmake q -> after = before).

(** A computation that returns in every world. *)
Definition always_returns {A} (m : io A) : Prop :=
  forall w, exists a w', m w = (Ret a, w').

(** * Theorems *)

Example replace_ex1 : replace (u "ab") (u "X") (u "cababab-a") = u "cXXX-a".
Proof. reflexivity. Qed.

Example replace_ex2 : replace (u "aa") (u "b") (u "aaaaa") = u "bba".
Proof. reflexivity. Qed.

Example replace_ex3 : replace [] (u "-") (u "abc") = u "-a-b-c-".
Proof. reflexivity. Qed.

Example split_ex1 : re_split_sep (u "a--b_c-") = [u "a"; []; u "b"; u "c"; []].
Proof. reflexivity. Qed.

Example camel_ex1 : _to_camel_case (u "my-awesome_project") = u "MyAwesomeProject".
Proof. reflexivity. Qed.

Example rules_ex1 :
  _generate_replacements (u "my-project") =
  [ (u "cpp-template", u "my-project");
    (u "cpp_template", u "my_project");
    (u "CPP-TEMPLATE", u "MY-PROJECT");
    (u "CPP_TEMPLATE", u "MY_PROJECT");
    (u "CppTemplate", u "MyProject");
    (u "cpp_template", u "my_project");
    (u "https://github.com/your-username/cpp-template",
     u "https://github.com/your-username/my-project") ].
Proof. reflexivity. Qed.

(** Membership in a list that is written out. *)
Ltac list_member :=
  repeat first [apply list_elem_of_here | apply list_elem_of_further].

(** ** Validation *)

Section Validation.

Lemma class_letter_name c : class_letter c = true -> class_name c = true.
Proof.
  unfold class_letter, class_name. intros H.
  apply orb_true_iff in H as [->| ->]; [reflexivity|].
  by rewrite !orb_true_r.
Qed.

Lemma class_name_not_newline c : class_name c = true -> c <> newline.
Proof. intros H ->. vm_compute in H. discriminate. Qed.

Lemma class_name_ascii c : class_name c = true -> is_ascii c = true.
Proof.
  unfold class_name, is_lower, is_upper, is_digit, is_ascii, underscore, hyphen.
  intros H. apply N.ltb_lt.
  repeat (apply orb_true_iff in H as [H|H]);
    try (apply andb_true_iff in H as [_ H]; apply N.leb_le in H; lia);
    apply N.eqb_eq in H; lia.
Qed.

(** What the pattern accepts after the first letter: characters of the
    class up to the end, or up to one final newline. *)
Lemma match_body_spec s :
  match_body s = true <->
  Forall (fun d => class_name d = true) s \/
  exists b, s = b ++ [newline] /\ Forall (fun d => class_name d = true) b.
Proof.
  induction s as [|c t IH]; simpl.
  - split; [intros _; left; constructor | reflexivity].
  - rewrite orb_true_iff, !andb_true_iff, IH, N.eqb_eq, bool_decide_eq_true.
    split.
    + intros [[Hc [Ht | (b & -> & Hb)]] | [-> ->]].
      * left. by constructor.
      * right. exists (c :: b). split; [reflexivity | by constructor].
      * right. exists []. split; [reflexivity | constructor].
    + intros [H | (b & Hb & Hall)].
      * inversion H; subst. left. split; [done | by left].
      * destruct b as [|c' b']; simpl in Hb.
        -- injection Hb as -> ->. by right.
        -- injection Hb as -> ->. inversion Hall; subst.
           left. split; [done|]. right. by exists b'.
    Qed.

Lemma re_match_name_spec name :
  re_match_name name = true <->
  well_formed_name name \/
  exists b, name = b ++ [newline] /\ well_formed_name b.
Proof.
  destruct name as [|c t]; simpl.
  - split; [discriminate|]. intros [[] | (b & Hb & _)].
    by destruct b.
  - rewrite andb_true_iff, match_body_spec. split.
    + intros [Hc [Ht | (b & -> & Hb)]]; [by left|].
      right. exists (c :: b). by split.
    + intros [[Hc Ht] | (b & Hb & Hwf)]; [by split; [|left]|].
      destruct b as [|c' b']; [destruct Hwf|].
      simpl in Hb. injection Hb as -> ->. destruct Hwf as [Hc Hb'].
      split; [done|]. right. by exists b'.
Qed.

(** The validator, case by case. *)
Lemma validate_spec name :
  _validate_project_name name = Valid tt <->
  re_match_name name = true /\ (length name <= 50)%nat.
Proof.
  unfold _validate_project_name.
  case_bool_decide as Hnil.
  - subst. simpl. split; [discriminate | intros [? _]; discriminate].
  - destruct (re_match_name name); simpl.
    + destruct (Nat.ltb_spec 50 (length name)).
      * split; [discriminate | lia].
      * split; [intros _; split; [done | lia] | done].
    + split; [discriminate | intros [? _]; discriminate].
Qed.

(** Every character of a name that passed validation is ASCII: the case
    functions [upper_char] and [lower_char] are exact on such names. *)
Lemma validated_name_chars name :
  _validate_project_name name = Valid tt ->
  Forall (fun c => is_ascii c = true) name.
Proof.
  intros [Hm _]%validate_spec.
  assert (Hwf : forall b, well_formed_name b -> Forall (fun c => is_ascii c = true) b).
  { intros [|c t]; [intros []|]. intros [Hc Ht]. constructor.
    - by apply class_name_ascii, class_letter_name.
    - eapply Forall_impl; [exact Ht|]. intros d. apply class_name_ascii. }
  apply re_match_name_spec in Hm as [H | (b & -> & H)]; [by apply Hwf|].
  apply Forall_app. split; [by apply Hwf|]. by repeat constructor.
Qed.

End Validation.

(** For a name that does not end in a newline the validator is exactly the
    documented rule. *)
Lemma validate_without_final_newline name :
  List.last name 0 <> newline ->
  _validate_project_name name = Valid tt <->
  well_formed_name name /\ (length name <= 50)%nat.
Proof.
  intros Hlast. rewrite validate_spec, re_match_name_spec.
  split; [|intros [? ?]; split; [by left | done]].
  intros [[H | (b & -> & _)] Hlen]; [done|].
  rewrite last_last in Hlast. done.
Qed.

Lemma validate_rejects_empty : _validate_project_name [] = Invalid NameEmpty.
Proof. reflexivity. Qed.

Lemma validate_rejects_long name :
  (50 < length name)%nat -> _validate_project_name name <> Valid tt.
Proof. intros Hlen [_ H]%validate_spec. lia. Qed.

Lemma validate_rejects_first c t :
  class_letter c = false -> _validate_project_name (c :: t) = Invalid NameBadPattern.
Proof.
  intros Hc. unfold _validate_project_name. simpl. by rewrite Hc.
Qed.

(** C5 (the code departs from the claim): the name [my-project] followed
    by a newline contains a character outside [A-Za-z0-9_-], so the claim
    has validation fail on it, and the validator accepts it. *)
Theorem validate_accepts_name_with_newline :
  let name := u "my-project" ++ [newline] in
  _validate_project_name name = Valid tt /\
  ~ Forall (fun c => class_name c = true) name /\
  ~ well_formed_name name.
Proof.
  simpl. split; [reflexivity|]. split.
  - intros H. rewrite Forall_forall in H.
    specialize (H newline). discriminate H. list_member.
  - intros [_ H]. rewrite Forall_forall in H.
    specialize (H newline). discriminate H. list_member.
Qed.

(** C10: a well-formed name of at most 49 characters followed by one
    newline passes validation, although the newline is outside
    [A-Za-z0-9_-]. *)
Theorem validate_accepts_trailing_newline (S : str) :
  well_formed_name S -> (length S <= 49)%nat ->
  _validate_project_name (S ++ [newline]) = Valid tt /\
  ~ Forall (fun c => class_name c = true) (S ++ [newline]).
Proof.
  intros Hwf Hlen. split.
  - apply validate_spec. split.
    + apply re_match_name_spec. right. by exists S.
    + rewrite length_app. simpl. lia.
  - intros [_ Hnl]%Forall_app. inversion Hnl; subst. discriminate.
Qed.

Lemma validate_accepts_trailing_newline_witness :
  _validate_project_name (u "lib_2" ++ [newline]) = Valid tt /\
  ~ Forall (fun c => class_name c = true) (u "lib_2" ++ [newline]).
Proof.
  apply (validate_accepts_trailing_newline (u "lib_2")).
  - split; [reflexivity|]. repeat constructor.
  - simpl. lia.
Defined.

(** ** The CamelCase rule *)

Section CamelCase.

Lemma re_split_sep_nonempty s : re_split_sep s <> [].
Proof.
  destruct s as [|c t]; simpl; [done|].
  destruct (is_sep c); [done|]. by destruct (re_split_sep t).
Qed.

Lemma segments_from_split cur s :
  segments_from cur s =
  (rev cur ++ hd [] (re_split_sep s)) :: tl (re_split_sep s).
Proof.
  revert cur. induction s as [|c t IH]; intros cur; simpl.
  - by rewrite app_nil_r.
  - destruct (is_sep c); simpl.
    + rewrite app_nil_r. f_equal. rewrite IH. simpl.
      pose proof (re_split_sep_nonempty t). by destruct (re_split_sep t).
    + rewrite IH. simpl. rewrite <- app_assoc. simpl.
      pose proof (re_split_sep_nonempty t). by destruct (re_split_sep t).
Qed.

(** [re.split] returns the segments of the name. *)
Lemma re_split_sep_segments s : re_split_sep s = segments s.
Proof.
  unfold segments. rewrite segments_from_split. simpl.
  pose proof (re_split_sep_nonempty s). by destruct (re_split_sep s).
Qed.

Lemma to_camel_case_segments name :
  _to_camel_case name = concat (map first_upper_rest_lower (segments name)).
Proof.
  unfold _to_camel_case, join. rewrite re_split_sep_segments.
  reflexivity.
Qed.

Lemma lower_char_not_upper c : is_upper c = false -> lower_char c = c.
Proof. unfold lower_char. by intros ->. Qed.

(** Where no segment has an upper-case letter after its first character,
    lower-casing the remainder leaves it as it is. *)
Lemma to_camel_case_untouched name :
  Forall (fun seg => Forall (fun c => is_upper c = false) (tl seg)) (segments name) ->
  _to_camel_case name = concat (map first_upper_rest_untouched (segments name)).
Proof.
  intros H. rewrite to_camel_case_segments. f_equal.
  induction H as [|seg segs Hseg _ IH]; simpl; [done|].
  rewrite IH. f_equal.
  destruct seg as [|c r]; simpl in *; [done|]. f_equal.
  induction Hseg as [|d r Hd _ IHr]; simpl; [done|].
  by rewrite lower_char_not_upper, IHr.
Qed.

End CamelCase.

(** C2, as amended: for a validated name the replacement text of rule 5 is
    the concatenation of the name's hyphen/underscore-separated segments,
    each with its first character upper-cased and its remainder
    lower-cased. *)
Theorem camel_case_rule_text (name : str) :
  _validate_project_name name = Valid tt ->
  rule_pattern 5 name = Some (u "CppTemplate") /\
  rule_text 5 name = Some (concat (map first_upper_rest_lower (segments name))).
Proof.
  intros _. split; [reflexivity|].
  unfold rule_text, _generate_replacements. simpl.
  by rewrite to_camel_case_segments.
Qed.

Lemma camel_case_rule_text_witness :
  rule_pattern 5 (u "game-engine") = Some (u "CppTemplate") /\
  rule_text 5 (u "game-engine") = Some (u "GameEngine").
Proof.
  apply (camel_case_rule_text (u "game-engine")). reflexivity.
Defined.

(** C2, as stated, fails at the name [myABC-lib] of the claim: the code
    gives [MyabcLib], the segments with their remainders untouched give
    [MyABCLib]. *)
Lemma camel_case_rest_not_untouched :
  let name := u "myABC-lib" in
  _validate_project_name name = Valid tt /\
  rule_text 5 name = Some (u "MyabcLib") /\
  concat (map first_upper_rest_untouched (segments name)) = u "MyABCLib" /\
  rule_text 5 name <>
    Some (concat (map first_upper_rest_untouched (segments name))).
Proof.
  simpl. repeat split; discriminate.
Qed.

(** ** The replacement engine *)

Section Engine.

Variable self : PlaceholderReplacer.

(** [process_file], outcome by outcome. *)
Lemma process_file_cases (p : path) (w : world) :
  process_file self p w =
  match files w !! p with
  | None => (Ret false, say (WarningNotFoundLine p) w)
  | Some Dir => (Ret false, say (ErrorProcessingLine p IsADirectoryError) w)
  | Some (Regular f) =>
      if negb (readable f) then
        (Ret false, say (ErrorProcessingLine p PermissionError) w)
      else
        match data f with
        | NotUtf8 => (Ret false, say (ErrorProcessingLine p UnicodeDecodeError) w)
        | Text s =>
            let s' := apply_replacements (replacements self) s in
            if bool_decide (s' = s) then (Ret false, say (NoChangesLine p) w)
            else if negb (writable f) then
              (Ret false, say (ErrorProcessingLine p PermissionError) w)
            else (Ret true, say (UpdatedLine p) (written p f s' w))
        end
  end.
Proof.
  unfold process_file, bind, path_exists, try_except, read_text, write_text, eqb.
  cbn beta.
  destruct (files w !! p) as [[[d m rd wr]|]|] eqn:E; simpl; rewrite ?E;
    try reflexivity.
  destruct rd; simpl; [|reflexivity].
  destruct d as [s|]; simpl; [|reflexivity].
  case_bool_decide; simpl; [reflexivity|].
  rewrite E. destruct wr; reflexivity.
Qed.

(** [process_file] always returns, and never adds or removes a path. *)
Lemma process_file_returns (p : path) (w : world) :
  exists b w', process_file self p w = (Ret b, w') /\
    (forall q, is_Some (files w' !! q) <-> is_Some (files w !! q)) /\
    (forall q, q <> p -> files w' !! q = files w !! q).
Proof.
  rewrite process_file_cases.
  destruct (files w !! p) as [[f|]|] eqn:E;
    try (eexists _, _; split; [reflexivity|]; split; intros; reflexivity).
  destruct (readable f); simpl;
    [| eexists _, _; split; [reflexivity|]; split; intros; reflexivity].
  destruct (data f) as [s|];
    [| eexists _, _; split; [reflexivity|]; split; intros; reflexivity].
  simpl. case_bool_decide;
    [eexists _, _; split; [reflexivity|]; split; intros; reflexivity|].
  destruct (writable f); simpl;
    [| eexists _, _; split; [reflexivity|]; split; intros; reflexivity].
  eexists _, _. split; [reflexivity|]. simpl. split.
  - intros q. destruct (decide (p = q)) as [<-|Hne].
    + rewrite lookup_insert_eq, E. split; eauto.
    + by rewrite lookup_insert_ne.
  - intros q Hne. by rewrite lookup_insert_ne.
Qed.

(** The loop of [process_all_files] always runs to its end: every target
    is counted as processed, at most the targets that exist are counted as
    updated, and the error counter is left as it was. *)
Lemma process_loop_returns (l : list path) (stats : Stats) (w : world) :
  exists stats' w', process_loop self l stats w = (Ret stats', w') /\
    processed stats' = (processed stats + length l)%nat /\
    (updated stats <= updated stats' <= updated stats + present_count w l)%nat /\
    errors stats' = errors stats /\
    (forall q, is_Some (files w' !! q) <-> is_Some (files w !! q)) /\
    (forall q, q ∉ l -> files w' !! q = files w !! q).
Proof.
  revert stats w. induction l as [|p rest IH]; intros stats w.
  - exists stats, w. simpl. unfold present_count. simpl.
    repeat split; auto; lia.
  - simpl. unfold bind.
    destruct (process_file_returns p w) as (b & w1 & Hpf & Hdom & Hother).
    rewrite Hpf.
    assert (Hb : b = true -> is_Some (files w !! p)).
    { intros ->. rewrite process_file_cases in Hpf.
      destruct (files w !! p); [eauto | discriminate]. }
    match goal with |- context [process_loop self rest ?st w1] =>
      destruct (IH st w1) as (stats' & w' & Hloop & Hproc & Hupd & Herr & Hdom' & Hother')
    end.
    exists stats', w'. split; [exact Hloop|].
    assert (Hcount : present_count w1 rest = present_count w rest).
    { unfold present_count. f_equal. apply list_filter_iff. intros q. apply Hdom. }
    assert (Hhead : (present_count w (p :: rest) =
                     (if decide (is_Some (files w !! p)) then 1 else 0)
                     + present_count w rest)%nat).
    { unfold present_count. rewrite filter_cons.
      destruct (decide (is_Some (files w !! p))); reflexivity. }
    rewrite Hhead, <- Hcount.
    destruct b; simpl in *.
    + destruct (decide (is_Some (files w !! p))) as [_|Hn]; [|by destruct Hn; auto].
      repeat split; try lia; try congruence.
      * intros H. apply Hdom, Hdom'. exact H.
      * intros H. apply Hdom', Hdom. exact H.
      * intros q Hq. rewrite not_elem_of_cons in Hq. destruct Hq as [Hqp Hq].
        rewrite Hother' by done. by apply Hother.
    + repeat split; try lia; try congruence.
      * intros H. apply Hdom, Hdom'. exact H.
      * intros H. apply Hdom', Hdom. exact H.
      * intros q Hq. rewrite not_elem_of_cons in Hq. destruct Hq as [Hqp Hq].
        rewrite Hother' by done. by apply Hother.
Qed.

End Engine.

Section EngineLog.

Variable self : PlaceholderReplacer.

(** Closes one outcome of [process_file]: the printed line names the path
    that was processed, which exists. *)
Local Ltac line_case Hq :=
  eexists _, _, _; repeat split; try done;
  try (intros He; injection He as ->; by eapply Hq);
  try (intros e He; injection He as -> _; by eapply Hq).

(** [process_file] prints one line; for a path that does not exist it is
    the warning, and no line reports a missing path as updated or failed. *)
Lemma process_file_line (q : path) (w : world) :
  exists b w1 ln, process_file self q w = (Ret b, w1) /\
    out w1 = out w ++ [ln] /\
    (files w !! q = None ->
       ln = WarningNotFoundLine q /\ b = false /\ files w1 = files w) /\
    (forall p, files w !! p = None ->
       ln <> UpdatedLine p /\ forall e, ln <> ErrorProcessingLine p e).
Proof.
  rewrite process_file_cases.
  assert (Hq : is_Some (files w !! q) ->
               forall p, files w !! p = None -> p <> q).
  { intros [x Hx] p Hp ->. congruence. }
  destruct (files w !! q) as [[[d m rd wr]|]|] eqn:E; simpl;
    [specialize (Hq (ltac:(eauto))) .. | clear Hq].
  - destruct rd; simpl; [|line_case Hq].
    destruct d as [s|]; simpl; [|line_case Hq].
    case_bool_decide; [line_case Hq|].
    destruct wr; simpl; line_case Hq.
  - line_case Hq.
  - eexists _, _, _. repeat split; done.
Qed.

(** The lines of the whole loop. *)
Lemma process_loop_lines (l : list path) (stats : Stats) (w : world) :
  exists stats' w' new, process_loop self l stats w = (Ret stats', w') /\
    out w' = out w ++ new /\
    (forall p, files w !! p = None ->
       (p ∈ l -> WarningNotFoundLine p ∈ new) /\
       (UpdatedLine p ∉ new) /\
       (forall e, ErrorProcessingLine p e ∉ new) /\
       files w' !! p = None).
Proof.
  revert stats w. induction l as [|q rest IH]; intros stats w.
  - exists stats, w, []. simpl. rewrite app_nil_r.
    split; [reflexivity|]. split; [reflexivity|]. intros p Hp.
    split; [by intros ?%elem_of_nil|].
    split; [apply not_elem_of_nil|].
    split; [intros e; apply not_elem_of_nil | exact Hp].
  - simpl. unfold bind.
    destruct (process_file_line q w) as (b & w1 & ln & Hpf & Hout & Hmiss & Hln).
    destruct (process_file_returns self q w) as (b' & w1' & Hpf' & Hdom & _).
    rewrite Hpf in Hpf'. injection Hpf' as <- <-.
    rewrite Hpf.
    match goal with |- context [process_loop self rest ?st w1] =>
      destruct (IH st w1) as (stats' & w' & new & Hloop & Hout' & Hrest)
    end.
    exists stats', w', (ln :: new). split; [exact Hloop|]. split.
    { rewrite Hout', Hout, <- app_assoc. reflexivity. }
    intros p Hp.
    assert (Hp1 : files w1 !! p = None).
    { destruct (files w1 !! p) eqn:E1; [|done].
      assert (is_Some (files w !! p)) as [x Hx] by (apply Hdom; eauto).
      congruence. }
    destruct (Hrest p Hp1) as (Hwarn & Hupd & Herr & Hend).
    destruct (Hln p Hp) as [Hlu Hle].
    repeat split.
    + intros [->|Hin]%elem_of_cons.
      * destruct (Hmiss Hp) as (-> & _). by left.
      * right. by apply Hwarn.
    + intros [Heq|Hin]%elem_of_cons; [by apply Hlu | by apply Hupd].
    + intros e [Heq|Hin]%elem_of_cons; [by eapply Hle | by eapply Herr].
    + exact Hend.
Qed.

End EngineLog.



Lemma my_project_replacer_init :
  __init__ (u "my-project") true = Valid my_project_replacer.
Proof. reflexivity. Qed.

(** Whatever the files hold, the pass returns with the error counter at
    0: no statement of the script increments it. *)
Lemma process_all_files_errors_zero (self : PlaceholderReplacer) (w : world) :
  exists stats w', process_all_files self w = (Ret stats, w') /\
    errors stats = 0%nat /\
    processed stats = length (files_to_process self).
Proof.
  unfold process_all_files, bind, print.
  destruct (process_loop_returns self (files_to_process self) (mkStats 0 0 0)
              (say (ReplacingLine (new_name self)) w))
    as (stats & w' & Hloop & Hproc & _ & Herr & _).
  exists stats, w'. split; [exact Hloop|]. split; [exact Herr | exact Hproc].
Qed.

(** C1 (the code departs from the claim): in a project whose README.md
    does not decode as UTF-8, the pass catches the error of that file,
    prints it and goes on to the remaining targets, and the summary's
    error counter is still 0. *)
Theorem undecodable_target_not_counted_as_error :
  exists w',
    process_all_files my_project_replacer broken_readme_world
      = (Ret (mkStats 9 1 0), w') /\
    files broken_readme_world !! [u "README.md"] = Some undecodable /\
    (ErrorProcessingLine [u "README.md"] UnicodeDecodeError ∈ out w') /\
    (NoChangesLine [u "vcpkg.json"] ∈ out w').
Proof.
  eexists. split; [vm_compute; reflexivity|].
  split; [vm_compute; reflexivity|].
  split; list_member.
Qed.


(** A target that holds a placeholder and cannot be written is reported
    as an error and keeps its content. *)
Example read_only_target_is_an_error :
  let w := world_of [ ([], Dir); ([u "README.md"], read_only (u "cpp-template")) ] in
  process_file my_project_replacer [u "README.md"] w
  = (Ret false, say (ErrorProcessingLine [u "README.md"] PermissionError) w).
Proof. vm_compute. reflexivity. Qed.


(** ** The dry run *)

Section ReadOnly.

Lemma read_only_ret {A} (a : A) : read_only_io (ret a).
Proof. by intros w. Qed.

Lemma read_only_raise {A} (e : exn) : read_only_io (@raise A e).
Proof. by intros w. Qed.

Lemma read_only_sys_exit {A} (c : nat) : read_only_io (@sys_exit A c).
Proof. by intros w. Qed.

Lemma read_only_print (l : line) : read_only_io (print l).
Proof. by intros w. Qed.

Lemma read_only_input : read_only_io input.
Proof. intros w. unfold input. by destruct (stdin w). Qed.

Lemma read_only_path_exists (p : path) : read_only_io (path_exists p).
Proof. by intros w. Qed.

Lemma read_only_read_text (p : path) : read_only_io (read_text p).
Proof.
  intros w. unfold read_text.
  destruct (files w !! p) as [[f|]|]; simpl; try done.
  destruct (readable f); simpl; [|done]. by destruct (data f).
Qed.

Lemma read_only_bind {A B} (m : io A) (k : A -> io B) :
  read_only_io m -> (forall a, read_only_io (k a)) -> read_only_io (bind m k).
Proof.
  intros Hm Hk w. unfold bind. specialize (Hm w).
  destruct (m w) as [[a|e|c] w1]; simpl in *; [|done..].
  destruct Hm as [Hf1 Hn1]. destruct (Hk a w1) as [Hf Hn].
  split; congruence.
Qed.

Lemma read_only_when (c : bool) (m : io unit) :
  read_only_io m -> read_only_io (when c m).
Proof. intros Hm. destruct c; simpl; [done | apply read_only_ret]. Qed.

Lemma read_only_for_each {A} (l : list A) (body : A -> io unit) :
  (forall x, read_only_io (body x)) -> read_only_io (for_each l body).
Proof.
  intros Hb. induction l as [|x l IH]; simpl.
  - apply read_only_ret.
  - apply read_only_bind; auto.
Qed.

Lemma bind_returned {A B} (m : io A) (k : A -> io B) (w w' : world) (a : A) :
  m w = (Ret a, w') -> bind m k w = k a w'.
Proof. unfold bind. by intros ->. Qed.

(** A loop that only prints. *)
Lemma for_each_print {A} (l : list A) (g : A -> line) (w : world) :
  for_each l (fun x => print (g x)) w
  = (Ret tt, World (files w) (now w) (stdin w) (out w ++ map g l)).
Proof.
  revert w. induction l as [|x l IH]; intros w; simpl.
  - rewrite app_nil_r. by destruct w.
  - unfold bind, print at 1. simpl. rewrite IH. simpl.
    by rewrite <- app_assoc.
Qed.

End ReadOnly.

Create HintDb read_only.

#[local] Hint Resolve read_only_ret read_only_raise read_only_sys_exit
  read_only_print read_only_input read_only_path_exists read_only_read_text
  read_only_when read_only_for_each : read_only.

(** C8: with [--dry-run], with or without [--no-backup], [main] leaves
    every file as it is and creates no backup directory: the files (and
    the clock) after the call are those before it.  Where the project root
    holds a readable CMakeLists.txt that does not yet use the name, the
    dry run validates the name: an invalid name ends the call with the
    validation error, a valid one has the rule list and the number of
    targets printed. *)
Theorem dry_run_leaves_files_untouched (args : Args) (w : world) :
  dry_run args = true ->
  (files (main args w).2 = files w /\ now (main args w).2 = now w) /\
  (forall f c,
     is_Some (files w !! []) ->
     files w !! [u "CMakeLists.txt"] = Some (Regular f) ->
     readable f = true -> data f = Text c ->
     contains (u "project(" ++ project_name args) c = false ->
     match _validate_project_name (project_name args) with
     | Invalid e => main args w = (Raise (NameError e), say DryRunLine w)
     | Valid _ =>
         main args w =
         (Ret tt,
          World (files w) (now w) (stdin w)
                (out w ++ [DryRunLine; WouldApplyLine]
                   ++ map (fun rule => RuleLine rule.1 rule.2)
                          (_generate_replacements (project_name args))
                   ++ [WouldProcessLine 9]))
     end).
Proof.
  intros Hdry. split.
  - assert (H : read_only_io (main args)); [|apply H].
    unfold main. rewrite Hdry.
    apply read_only_bind; [auto with read_only|]. intros [|]; simpl;
      [|apply read_only_bind; auto with read_only].
    apply read_only_bind; [auto with read_only|]. intros [|]; simpl;
      [|apply read_only_bind; auto with read_only].
    apply read_only_bind; [auto with read_only|]. intros content.
    apply read_only_bind.
    { apply read_only_when, read_only_bind; [auto with read_only|]. intros _.
      apply read_only_bind; [auto with read_only|]. intros response.
      apply read_only_when, read_only_bind; auto with read_only. }
    intros _. apply read_only_bind; [auto with read_only|]. intros _.
    destruct (__init__ (project_name args) false); [|auto with read_only].
    apply read_only_bind; [auto with read_only|]. intros _.
    apply read_only_bind; auto with read_only.
  - intros f c [x Hroot] Hcmake Hr Hd Hnot.
    destruct f as [d m rd wr]. simpl in Hr, Hd. subst d rd.
    assert (Hstart : main args w =
              match __init__ (project_name args) false with
              | Valid replacer =>
                  (step print WouldApplyLine;
                   step for_each (replacements replacer)
                          (fun rule => print (RuleLine rule.1 rule.2));
                   print (WouldProcessLine (length (files_to_process replacer))))
                  (say DryRunLine w)
              | Invalid e => (Raise (NameError e), say DryRunLine w)
              end).
    { unfold main.
      rewrite (bind_returned _ _ w w true)
        by (unfold path_exists; rewrite Hroot; reflexivity).
      cbv beta iota zeta delta [negb].
      rewrite (bind_returned _ _ w w true)
        by (unfold path_exists; rewrite Hcmake; reflexivity).
      cbv beta iota zeta delta [negb].
      rewrite (bind_returned _ _ w w c)
        by (unfold read_text; rewrite Hcmake; reflexivity).
      rewrite Hnot, Hdry. unfold when.
      rewrite (bind_returned _ _ w w tt) by reflexivity.
      rewrite (bind_returned _ _ w (say DryRunLine w) tt) by reflexivity.
      by destruct (__init__ (project_name args) false). }
    rewrite Hstart. unfold __init__.
    destruct (_validate_project_name (project_name args)) as [[]|e];
      [|reflexivity].
    cbv beta iota zeta delta [replacements files_to_process].
    rewrite (bind_returned _ _ (say DryRunLine w)
               (say WouldApplyLine (say DryRunLine w)) tt)
      by reflexivity.
    erewrite bind_returned by apply for_each_print.
    unfold print, say. cbn [files now stdin out].
    rewrite <- !app_assoc. reflexivity.
Qed.


Lemma dry_run_leaves_files_untouched_witness :
  let args := mkArgs (u "my-project") false true in
  files (main args small_project_world).2 = files small_project_world /\
  now (main args small_project_world).2 = now small_project_world.
Proof.
  intros args.
  apply (proj1 (dry_run_leaves_files_untouched args small_project_world eq_refl)).
Defined.

(** ** The backup step *)

Section Primitives.

Lemma below_app (d t : path) : below d (d ++ t) = true.
Proof. apply bool_decide_eq_true_2. by apply prefix_app_r. Qed.

Lemma below_refl (d : path) : below d d = true.
Proof. by apply bool_decide_eq_true_2. Qed.

Lemma below_prefix (d q : path) : below d q = true <-> d `prefix_of` q.
Proof. unfold below. by rewrite bool_decide_eq_true. Qed.

Lemma below_false (d q : path) : below d q = false <-> ~ d `prefix_of` q.
Proof. unfold below. by rewrite bool_decide_eq_false. Qed.

Lemma rmtree_cases (d : path) (w : world) :
  match rmtree d w with
  | (Ret _, w') =>
      files w' = filter (fun kv => below d kv.1 = false) (files w)
  | (Raise _, w') => w' = w
  | (Exit _, _) => False
  end.
Proof. unfold rmtree. by destruct (files w !! d) as [[f|]|]. Qed.

Lemma mkdir_cases (d : path) (w : world) :
  match mkdir d w with
  | (Ret _, w') =>
      files w' = <[d := Dir]> (files w) /\ files w !! parent d = Some Dir
  | (Raise _, w') => w' = w
  | (Exit _, _) => False
  end.
Proof.
  unfold mkdir. destruct (files w !! d); [done|].
  by destruct (files w !! parent d) as [[f|]|].
Qed.

(** [mkdir_parents] only adds directories, at missing prefixes of the
    path, whether it returns or raises. *)
Lemma mkdir_from_cases (done todo : path) (w : world) :
  match mkdir_from done todo w with
  | (Exit _, _) => False
  | (_, w') =>
      forall q, files w' !! q = files w !! q \/
        (files w !! q = None /\ files w' !! q = Some Dir /\
         q `prefix_of` done ++ todo)
  end.
Proof.
  revert done w. induction todo as [|c todo IH]; intros done w; simpl.
  - destruct (files w !! done) as [[f|]|] eqn:E; simpl; auto.
    intros q. destruct (decide (q = done)) as [->|Hne].
    + right. rewrite lookup_insert_eq, app_nil_r. done.
    + left. by rewrite lookup_insert_ne.
  - destruct (files w !! done) as [[f|]|] eqn:E; simpl; auto.
    + specialize (IH (done ++ [c]) w). rewrite <- app_assoc in IH. exact IH.
    + specialize (IH (done ++ [c]) (set_files (<[done:=Dir]> (files w)) w)).
      rewrite <- app_assoc in IH. simpl in IH.
      assert (Hstep : forall w',
        (forall q, files w' !! q = <[done:=Dir]> (files w) !! q \/
           (<[done:=Dir]> (files w) !! q = None /\ files w' !! q = Some Dir /\
            q `prefix_of` done ++ c :: todo)) ->
        forall q, files w' !! q = files w !! q \/
           (files w !! q = None /\ files w' !! q = Some Dir /\
            q `prefix_of` done ++ c :: todo)).
      { intros w' H q. destruct (decide (q = done)) as [->|Hne].
        - right. destruct (H done) as [Hq | (Hq & _)].
          + rewrite lookup_insert_eq in Hq. split; [done|]. split; [done|].
            by apply prefix_app_r.
          + by rewrite lookup_insert_eq in Hq.
        - destruct (H q) as [Hq | (Hq & Hq' & Hp)].
          + left. by rewrite lookup_insert_ne in Hq.
          + right. by rewrite lookup_insert_ne in Hq. }
      destruct (mkdir_from (done ++ [c]) todo
                  (set_files (<[done:=Dir]> (files w)) w)) as [[[]|e|n] w'];
        [by apply Hstep | by apply Hstep | done].
Qed.

Lemma copy2_cases (src dst : path) (w : world) :
  match copy2 src dst w with
  | (Ret _, w') =>
      exists f, files w !! src = Some (Regular f) /\ readable f = true /\
        (files w !! dst = None -> files w' = <[dst := Regular f]> (files w))
  | (Raise _, w') => w' = w
  | (Exit _, _) => False
  end.
Proof.
  unfold copy2. destruct (files w !! src) as [[f|]|] eqn:Es; [|done..].
  destruct (readable f) eqn:Hr; simpl; [|done].
  destruct (files w !! dst) as [[g|]|] eqn:Ed.
  - rewrite Ed. destruct (writable g); simpl; [|done].
    exists f. by repeat split.
  - destruct (files w !! (dst ++ [List.last src []])) as [[g|]|].
    + destruct (writable g); simpl; [|done]. exists f. by repeat split.
    + done.
    + destruct (files w !! parent (dst ++ [List.last src []])) as [[g|]|];
        [done| |done].
      exists f. by repeat split.
  - rewrite Ed. destruct (files w !! parent dst) as [[g|]|]; [done| |done].
    exists f. by repeat split.
Qed.

End Primitives.

Section Backup.

Variable b : str.
Variable targets : list path.
Variable w : world.

Hypothesis Hmirror : mirrorable [b] targets.
Hypothesis Hroot : files w !! [] = Some Dir.

Lemma parent_app (t : path) : t <> [] -> parent ([b] ++ t) = [b] ++ parent t.
Proof. intros Ht. destruct t as [|c t]; [done|]. reflexivity. Qed.

Lemma parent_prefix (t : path) : parent t `prefix_of` t.
Proof.
  unfold parent. destruct (decide (t = [])) as [->|Hne]; [done|].
  exists [List.last t []]. by apply app_removelast_last.
Qed.

Lemma parent_shorter (t : path) :
  t <> [] -> (length (parent t) < length t)%nat.
Proof.
  intros Hne. unfold parent.
  rewrite (app_removelast_last [] Hne) at 2. rewrite length_app. simpl. lia.
Qed.

(** One round of the loop keeps the backup tree a mirror of the targets
    dealt with; a round that raises has changed nothing outside the
    tree. *)
Lemma backup_one_step (copied : list path) (t : path) (w1 : world) :
  t ∈ targets -> t ∉ copied -> (forall t', t' ∈ copied -> t' ∈ targets) ->
  backed_up [b] copied w w1 ->
  match backup_target [b] t w1 with
  | (Ret _, w2) => backed_up [b] (copied ++ [t]) w w2
  | (Raise _, w2) =>
      forall q, below [b] q = false -> files w2 !! q = files w !! q
  | (Exit _, _) => False
  end.
Proof.
  intros Ht Hnew Hsub (Hout & Hdir & Hcopies & Honly).
  destruct Hmirror as (Hwf & Hnodup & Hnest).
  rewrite Forall_forall in Hwf. destruct (Hwf t Ht) as [Htne Htout].
  assert (Hsame : files w1 !! t = files w !! t) by by apply Hout.
  unfold backup_target. cbv zeta.
  destruct (files w1 !! t) as [x|] eqn:Et.
  2:{ (* the target does not exist: nothing happens *)
    rewrite (bind_returned _ _ w1 w1 false)
      by (unfold path_exists; rewrite Et; reflexivity).
    unfold when, ret. cbv beta iota.
    repeat split; auto.
    - intros t' [Hin | ->%list_elem_of_singleton]%elem_of_app; [by apply Hcopies|].
      intros [? ?]. congruence.
    - intros q Hq Hs. destruct (Honly q Hq Hs) as [->|(t' & Hin & Hp & Hq')]; [by left|].
      right. exists t'. split; [apply elem_of_app; by left | done]. }
  rewrite (bind_returned _ _ w1 w1 true)
    by (unfold path_exists; rewrite Et; reflexivity).
  unfold when. cbv beta iota. unfold bind at 1.
  pose proof (mkdir_from_cases [] (parent ([b] ++ t)) w1) as Hmk.
  unfold mkdir_parents.
  destruct (mkdir_from [] (parent ([b] ++ t)) w1) as [[[]|e|n] w2];
    cbv beta iota in Hmk |- *; [| |done].
  2:{ (* the directories could not be made *)
    intros q Hq. destruct (Hmk q) as [-> | (Hnone & _ & Hpre)]; [by apply Hout|].
    rewrite app_nil_l, parent_app in Hpre by done.
    destruct q as [|c q]; [rewrite Hout, Hroot in Hnone; done|].
    apply below_false in Hq. destruct Hq.
    assert (c = b) as -> by (by apply prefix_cons_inv_1 in Hpre).
    by apply prefix_cons, prefix_nil. }
  (* the directories are there *)
  assert (Hmk_out : forall q, below [b] q = false -> files w2 !! q = files w1 !! q).
  { intros q Hq. destruct (Hmk q) as [-> | (Hnone & _ & Hpre)]; [done|].
    rewrite app_nil_l, parent_app in Hpre by done.
    destruct q as [|c q]; [rewrite Hout, Hroot in Hnone; done|].
    apply below_false in Hq. destruct Hq.
    assert (c = b) as -> by (by apply prefix_cons_inv_1 in Hpre).
    by apply prefix_cons, prefix_nil. }
  assert (Hdst : files w2 !! ([b] ++ t) = None).
  { destruct (files w2 !! ([b] ++ t)) as [y|] eqn:Ey; [|done]. exfalso.
    destruct (Hmk ([b] ++ t)) as [Heq | (_ & _ & Hpre)].
    - rewrite Ey in Heq. symmetry in Heq.
      destruct (Honly ([b] ++ t) (below_app _ _) (ltac:(eauto)))
        as [Hb | (t' & Hin & _ & [Heq' | [Hpre _]])].
      + destruct t; [done | discriminate Hb].
      + apply app_inv_head in Heq'. subst t'. done.
      + apply prefix_app_inv in Hpre.
        assert (t = t') by (apply Hnest; auto). subst t'. done.
    - rewrite app_nil_l, parent_app in Hpre by done.
      apply prefix_app_inv in Hpre. apply prefix_length in Hpre.
      pose proof (parent_shorter t Htne). lia. }
  pose proof (copy2_cases t ([b] ++ t) w2) as Hcp.
  unfold bind at 1.
  destruct (copy2 t ([b] ++ t) w2) as [[[]|e|n] w3];
    cbv beta iota in Hcp |- *; [| |done].
  2:{ subst w3. intros q Hq. rewrite Hmk_out by done. by apply Hout. }
  destruct Hcp as (f & Hsrc & _ & Hins). specialize (Hins Hdst).
  unfold print, say, backed_up. cbn [files]. rewrite Hins.
  rewrite Hmk_out, Et in Hsrc by done. injection Hsrc as ->.
  repeat split.
  - intros q Hq. rewrite lookup_insert_ne.
    + rewrite Hmk_out by done. by apply Hout.
    + intros <-. by rewrite below_app in Hq.
  - rewrite lookup_insert_ne by (destruct t; [done | discriminate]).
    destruct (Hmk [b]) as [-> | (Hnone & _)]; [done | congruence].
  - intros t' [Hin | ->%list_elem_of_singleton]%elem_of_app Hs.
    + rewrite lookup_insert_ne.
      * destruct (Hmk ([b] ++ t')) as [-> | (Hnone & _)]; [by apply Hcopies|].
        rewrite Hcopies in Hnone by done. destruct Hs. congruence.
      * intros Heq%app_inv_head. subst t'. done.
    + rewrite lookup_insert_eq. congruence.
  - intros q Hq Hs. destruct (decide (q = [b] ++ t)) as [->|Hne].
    { right. exists t. split; [apply elem_of_app; right; by left|].
      split; [rewrite <- Hsame; eauto | by left]. }
    rewrite lookup_insert_ne in Hs by done.
    destruct (Hmk q) as [Heq | (Hnone & Hnew' & Hpre)].
    + rewrite Heq in Hs.
      destruct (Honly q Hq Hs) as [->|(t' & Hin & Hp & [->|[Hq' Hd']])]; [by left|..].
      * right. exists t'. split; [apply elem_of_app; by left|]. split; [done | by left].
      * right. exists t'. split; [apply elem_of_app; by left|]. split; [done|].
        right. split; [done|]. rewrite lookup_insert_ne by done. congruence.
    + right. exists t. split; [apply elem_of_app; right; by left|].
      split; [rewrite <- Hsame; eauto|]. right. split.
      * rewrite app_nil_l, parent_app in Hpre by done.
        etrans; [exact Hpre|]. apply prefix_app, parent_prefix.
      * by rewrite lookup_insert_ne.
Qed.

(** The loop of [create_backup] over the targets that are left. *)
Lemma backup_loop (rest copied : list path) (w1 : world) :
  copied ++ rest = targets ->
  backed_up [b] copied w w1 ->
  match for_each rest (backup_target [b]) w1 with
  | (Ret _, w2) => backed_up [b] targets w w2
  | (Raise _, w2) =>
      forall q, below [b] q = false -> files w2 !! q = files w !! q
  | (Exit _, _) => False
  end.
Proof.
  revert copied w1. induction rest as [|t rest IH]; intros copied w1 Hsplit Hinv.
  - rewrite app_nil_r in Hsplit. subst copied. exact Hinv.
  - assert (Hnodup : NoDup targets) by apply Hmirror.
    rewrite <- Hsplit in Hnodup.
    apply NoDup_app in Hnodup as (_ & Hdisj & _).
    assert (Ht : t ∈ targets).
    { rewrite <- Hsplit. apply elem_of_app. right. by left. }
    assert (Hnew : t ∉ copied).
    { intros Hin. apply (Hdisj t Hin). by left. }
    assert (Hsub : forall t', t' ∈ copied -> t' ∈ targets).
    { intros t' Hin. rewrite <- Hsplit. apply elem_of_app. by left. }
    pose proof (backup_one_step copied t w1 Ht Hnew Hsub Hinv) as Hstep.
    simpl. unfold bind at 1.
    destruct (backup_target [b] t w1) as [[[]|e|n] w2]; [|exact Hstep|done].
    apply (IH (copied ++ [t])); [|exact Hstep].
    by rewrite <- app_assoc.
Qed.

End Backup.

(** Below a directory that does not exist, a tree holds nothing. *)
Lemma nothing_below_missing (m : gmap path node) (d q : path) :
  well_formed_tree m -> m !! d = None -> d `prefix_of` q -> m !! q = None.
Proof.
  intros Htree Hd [r ->]. induction r as [|c r IH] using rev_ind.
  - by rewrite app_nil_r.
  - destruct (m !! (d ++ r ++ [c])) as [x|] eqn:E; [|done]. exfalso.
    assert (Hp : m !! parent (d ++ r ++ [c]) = Some Dir).
    { apply Htree; [|eauto]. intros Heq. by destruct d, r. }
    unfold parent in Hp. rewrite app_assoc, removelast_last in Hp. congruence.
Qed.

Lemma target_files_mirrorable : mirrorable [u ".backup_placeholders"] target_files.
Proof.
  split; [|split].
  - apply (bool_decide_unpack _). vm_compute. exact I.
  - apply (bool_decide_unpack _). vm_compute. exact I.
  - assert (H : Forall (fun t => Forall (fun t' => t `prefix_of` t' -> t = t')
                                   target_files) target_files).
    { apply (bool_decide_unpack _). vm_compute. exact I. }
    intros t t' Ht Ht'. rewrite Forall_forall in H.
    specialize (H t Ht). rewrite Forall_forall in H. by apply H.
Qed.

(** Looking up a path after [rmtree]. *)
Lemma lookup_rmtree_files (m : gmap path node) (d q : path) :
  filter (fun kv : path * node => below d kv.1 = false) m !! q
  = if below d q then None else m !! q.
Proof.
  destruct (below d q) eqn:Hq.
  - apply map_lookup_filter_None. destruct (m !! q) as [x|]; [|by left].
    right. intros y _. simpl. congruence.
  - destruct (m !! q) as [x|] eqn:E.
    + by apply map_lookup_filter_Some.
    + apply map_lookup_filter_None. by left.
Qed.

(** From a world with nothing at or below the backup directory: the
    directory is made and the targets are copied. *)
Lemma backup_from_clean (b : str) (targets : list path) (w wc : world) :
  mirrorable [b] targets ->
  (forall q, below [b] q = false -> files wc !! q = files w !! q) ->
  (forall q, below [b] q = true -> files wc !! q = None) ->
  match (step mkdir [b]; for_each targets (backup_target [b])) wc
  with
  | (Ret _, w1) => backed_up [b] targets w w1
  | (Raise _, w1) =>
      forall q, below [b] q = false -> files w1 !! q = files w !! q
  | (Exit _, _) => False
  end.
Proof.
  intros Hmirror Hout Hnone. unfold bind at 1.
  pose proof (mkdir_cases [b] wc) as Hmk.
  destruct (mkdir [b] wc) as [[[]|e|n] wb]; [|by subst wb|done].
  destruct Hmk as [Hfiles Hparent].
  assert (Hroot : files w !! [] = Some Dir).
  { rewrite <- Hout; [exact Hparent|]. apply below_false. apply prefix_nil_not. }
  apply (backup_loop b targets w Hmirror Hroot targets [] wb); [reflexivity|].
  unfold backed_up. rewrite Hfiles. repeat split.
  - intros q Hq. rewrite lookup_insert_ne; [by apply Hout|].
    intros <-. by rewrite below_refl in Hq.
  - apply lookup_insert_eq.
  - by intros t ?%elem_of_nil.
  - intros q Hq Hs. left. destruct (decide (q = [b])) as [->|Hne]; [done|].
    rewrite lookup_insert_ne, Hnone in Hs by done. by destruct Hs.
Qed.

(** [create_backup] with the backup enabled: when it returns, the backup
    tree mirrors every target that exists and holds nothing else; whether
    it returns or raises, nothing outside the backup tree has changed. *)
Lemma create_backup_cases (self : PlaceholderReplacer) (b : str) (w : world) :
  backup self = true ->
  backup_dir self = [b] ->
  mirrorable [b] (files_to_process self) ->
  well_formed_tree (files w) ->
  match create_backup self w with
  | (Ret _, w1) => backed_up [b] (files_to_process self) w w1
  | (Raise _, w1) =>
      forall q, below [b] q = false -> files w1 !! q = files w !! q
  | (Exit _, _) => False
  end.
Proof.
  intros Hb Hdir Hmirror Htree. unfold create_backup. rewrite Hb, Hdir.
  cbv beta iota delta [negb].
  rewrite (bind_returned _ _ w (say CreatingBackupLine w) tt) by reflexivity.
  set (w0 := say CreatingBackupLine w).
  rewrite (bind_returned _ _ w0 w0 (bool_decide (is_Some (files w !! [b]))))
    by reflexivity.
  destruct (files w !! [b]) as [[f|]|] eqn:Eb.
  - (* a file is in the way *)
    rewrite bool_decide_eq_true_2 by eauto. unfold when.
    assert (Hrm : rmtree [b] w0 = (Raise NotADirectoryError, w0)).
    { unfold rmtree. change (files w0) with (files w). by rewrite Eb. }
    unfold bind at 1. rewrite Hrm. done.
  - (* the tree of an earlier backup is removed *)
    rewrite bool_decide_eq_true_2 by eauto. unfold when.
    rewrite (bind_returned _ _ w0
               (set_files (filter (fun kv => below [b] kv.1 = false) (files w)) w0)
               tt).
    2:{ unfold rmtree. change (files w0) with (files w). by rewrite Eb. }
    apply backup_from_clean; [done|..]; intros q Hq; cbn [files set_files];
      by rewrite lookup_rmtree_files, Hq.
  - (* there is no earlier backup *)
    rewrite bool_decide_eq_false_2 by (by intros [? ?]). unfold when.
    rewrite (bind_returned _ _ w0 w0 tt) by reflexivity.
    apply backup_from_clean; [done|by intros q Hq|].
    intros q Hq%below_prefix. change (files w0) with (files w).
    by eapply nothing_below_missing.
Qed.

Lemma well_formed_tree_check (m : gmap path node) :
  map_Forall (fun q _ => q = [] \/ m !! parent q = Some Dir) m ->
  well_formed_tree m.
Proof.
  intros H q Hq [x Hx]. destruct (H q x Hx) as [->|Hp]; done.
Qed.

Lemma init_fields (name : str) (bk : bool) (self : PlaceholderReplacer) :
  __init__ name bk = Valid self ->
  _validate_project_name name = Valid tt /\
  self = Replacer name bk [u ".backup_placeholders"] target_files
           (_generate_replacements name).
Proof.
  unfold __init__. destruct (_validate_project_name name) as [[]|e]; [|done].
  intros [= <-]. done.
Qed.

(** [run], split at the end of the backup step. *)
Lemma run_unfold (self : PlaceholderReplacer) (w : world) :
  run self w =
  let w0 := say WorkingDirectoryLine (say (StartingLine (new_name self)) w) in
  match create_backup self w0 with
  | (Ret _, w1) =>
      match run_after_backup self w1 with
      | (Raise e, w2) => run_failed self e w2
      | r => r
      end
  | (Raise e, w1) => run_failed self e w1
  | (Exit c, w1) => (Exit c, w1)
  end.
Proof.
  unfold run.
  rewrite (bind_returned _ _ w (say (StartingLine (new_name self)) w) tt)
    by reflexivity.
  rewrite (bind_returned _ _ _
             (say WorkingDirectoryLine (say (StartingLine (new_name self)) w)) tt)
    by reflexivity.
  cbv zeta. unfold try_except, bind at 1.
  by destruct (create_backup self _) as [[[]|e|c] w1].
Qed.

(** The handler of [run] leaves the files as they are and ends the
    process with status 1. *)
Lemma run_failed_exits (self : PlaceholderReplacer) (e : exn) (w : world) :
  exists w', run_failed self e w = (Exit 1, w') /\ files w' = files w.
Proof.
  unfold run_failed, bind, print, path_exists, when, sys_exit. simpl.
  destruct (backup self && bool_decide (is_Some (files w !! backup_dir self)));
    simpl; eexists; split; reflexivity.
Qed.

(** C7: in a run with the backup enabled the backup step is over before
    the replacement pass starts.  When [create_backup] returns, no target
    has been touched, the backup tree holds nothing of an earlier backup,
    and every target that exists has its copy there, at the same relative
    path, with its content, times and permissions; the replacement pass
    then starts from that world.  When [create_backup] raises, no target
    has been touched and the run ends with status 1 without the
    replacement pass: no file outside the backup tree is ever written. *)
Theorem backup_complete_before_replacement
    (name : str) (self : PlaceholderReplacer) (w : world) :
  __init__ name true = Valid self ->
  well_formed_tree (files w) ->
  let w0 := say WorkingDirectoryLine (say (StartingLine (new_name self)) w) in
  match create_backup self w0 with
  | (Ret _, w1) =>
      backed_up (backup_dir self) (files_to_process self) w w1 /\
      (forall t, t ∈ files_to_process self -> files w1 !! t = files w !! t) /\
      run self w = match run_after_backup self w1 with
                   | (Raise e, w2) => run_failed self e w2
                   | r => r
                   end
  | (Raise e, w1) =>
      (forall t, t ∈ files_to_process self -> files w1 !! t = files w !! t) /\
      exists w2, run self w = (Exit 1, w2) /\
        forall q, below (backup_dir self) q = false ->
          files w2 !! q = files w !! q
  | (Exit _, _) => False
  end.
Proof.
  intros [_ ->]%init_fields Htree w0.
  pose proof (run_unfold
                (Replacer name true [u ".backup_placeholders"] target_files
                          (_generate_replacements name)) w) as Hrun.
  cbv zeta in Hrun. fold w0 in Hrun.
  pose proof (create_backup_cases
                (Replacer name true [u ".backup_placeholders"] target_files
                          (_generate_replacements name))
                (u ".backup_placeholders") w0 eq_refl eq_refl
                target_files_mirrorable Htree) as Hcases.
  cbn [backup_dir files_to_process] in *.
  assert (Htargets : forall w1 : world,
            (forall q, below [u ".backup_placeholders"] q = false ->
                       files w1 !! q = files w !! q) ->
            forall t, t ∈ target_files -> files w1 !! t = files w !! t).
  { intros w1 Hout t Ht. apply Hout.
    destruct target_files_mirrorable as (Hwf & _).
    rewrite Forall_forall in Hwf. by apply Hwf. }
  destruct (create_backup _ w0) as [[[]|e|c] w1]; [| |done].
  - split; [exact Hcases|]. split; [|exact Hrun].
    apply Htargets, Hcases.
  - split; [by apply Htargets|].
    destruct (run_failed_exits
                (Replacer name true [u ".backup_placeholders"] target_files
                          (_generate_replacements name)) e w1) as (w2 & Hf & Hfiles).
    exists w2. split; [by rewrite Hrun|].
    intros q Hq. rewrite Hfiles. by apply Hcases.
Qed.

Lemma backup_complete_before_replacement_witness :
  exists w1,
    create_backup my_project_replacer
      (say WorkingDirectoryLine
         (say (StartingLine (u "my-project")) small_project_world))
    = (Ret tt, w1) /\
    backed_up [u ".backup_placeholders"] target_files small_project_world w1 /\
    files w1 !! [u ".backup_placeholders"; u "tests"; u "CMakeLists.txt"]
      = Some (plain (u "add_test(cpp_template)")) /\
    files w1 !! [u ".backup_placeholders"; u "stale.txt"] = None.
Proof.
  assert (Htree : well_formed_tree (files small_project_world)).
  { apply well_formed_tree_check, (bool_decide_unpack _). vm_compute. exact I. }
  pose proof (backup_complete_before_replacement (u "my-project")
                my_project_replacer small_project_world eq_refl Htree) as H.
  cbv zeta in H.
  eassert (E : create_backup my_project_replacer
                 (say WorkingDirectoryLine
                    (say (StartingLine (u "my-project")) small_project_world))
               = (Ret tt, _))
    by (vm_compute; reflexivity).
  change (new_name my_project_replacer) with (u "my-project") in H.
  rewrite E in H. eexists. split; [exact E|]. split; [apply H|].
  split; vm_compute; reflexivity.
Defined.

(** ** Literal replacement *)

Section Replace.

Lemma startswith_prefix (p s : str) : startswith p s = true <-> p `prefix_of` s.
Proof.
  revert s. induction p as [|a p IH]; intros s; simpl.
  - split; [intros _; apply prefix_nil | done].
  - destruct s as [|c s].
    + split; [done | intros H; by apply prefix_nil_not in H].
    + rewrite andb_true_iff, N.eqb_eq, IH. split.
      * intros [-> H]. by apply prefix_cons.
      * intros H. split; [by apply prefix_cons_inv_1 in H
                         | by apply prefix_cons_inv_2 in H].
Qed.

Lemma startswith_false (p s : str) : startswith p s = false <-> ~ p `prefix_of` s.
Proof. rewrite <- startswith_prefix. by destruct (startswith p s). Qed.

(** [p in s]: the text [s] has an occurrence of [p]. *)
Lemma contains_occurs (p s : str) :
  contains p s = true <-> exists a b, s = a ++ p ++ b.
Proof.
  induction s as [|c s IH]; simpl.
  - rewrite orb_false_r, startswith_prefix. split.
    + intros H%prefix_nil_inv. subst. by exists [], [].
    + intros (a & b & H). by destruct a, p.
  - rewrite orb_true_iff, startswith_prefix, IH. split.
    + intros [[b ->] | (a & b & ->)]; [by exists [], b | by exists (c :: a), b].
    + intros (a & b & H). destruct a as [|c' a]; simpl in H.
      * left. by exists b.
      * injection H as -> ->. right. by exists a, b.
Qed.

Lemma contains_false (p s : str) :
  contains p s = false <-> ~ exists a b, s = a ++ p ++ b.
Proof. rewrite <- contains_occurs. by destruct (contains p s). Qed.

Lemma replace_scan_fuel (old new : str) (n m : nat) (s : str) :
  old <> [] -> (length s <= n)%nat -> (length s <= m)%nat ->
  replace_scan n old new s = replace_scan m old new s.
Proof.
  intros Hold. revert m s. induction n as [|n IH]; intros m s Hn Hm.
  - destruct s; [|simpl in Hn; lia]. by destruct m.
  - destruct m as [|m].
    + destruct s; [done | simpl in Hm; lia].
    + simpl. destruct s as [|c s]; [done|].
      destruct (startswith old (c :: s)) eqn:Hst.
      * f_equal. destruct old as [|o old']; [done|]. simpl in *.
        apply IH; rewrite length_drop; lia.
      * f_equal. simpl in *. apply IH; lia.
Qed.

Lemma replace_unfold (old new s : str) :
  old <> [] -> replace old new s = replace_scan (length s) old new s.
Proof. intros Hold. unfold replace. by destruct old. Qed.

Variables old new : str.
Hypothesis old_nonempty : old <> [].

Lemma replace_nil : replace old new [] = [].
Proof. by rewrite replace_unfold. Qed.

(** At an occurrence the replacement text is emitted and the scan goes on
    after the occurrence. *)
Lemma replace_match (t : str) :
  replace old new (old ++ t) = new ++ replace old new t.
Proof.
  rewrite !replace_unfold by done.
  assert (Hlen : (0 < length old)%nat).
  { destruct old eqn:E; [done | simpl; lia]. }
  remember (old ++ t) as s eqn:Hs.
  assert (Hlens : length s = (length old + length t)%nat).
  { by rewrite Hs, length_app. }
  destruct s as [|c r]; [simpl in Hlens; lia|].
  simpl. rewrite Hs.
  rewrite (proj2 (startswith_prefix old (old ++ t))) by (by apply prefix_app_r).
  rewrite drop_app_length. f_equal.
  apply replace_scan_fuel; [done| |done].
  simpl in Hlens. lia.
Qed.

(** Elsewhere one character is copied. *)
Lemma replace_skip (c : char) (t : str) :
  startswith old (c :: t) = false ->
  replace old new (c :: t) = c :: replace old new t.
Proof.
  intros Hst. rewrite !replace_unfold by done. simpl. by rewrite Hst.
Qed.

(** A text without an occurrence of [old] is left as it is. *)
Lemma replace_absent (s : str) : contains old s = false -> replace old new s = s.
Proof.
  induction s as [|c s IH]; [intros _; apply replace_nil|].
  simpl. intros [Hst Hrest]%orb_false_iff.
  rewrite replace_skip by done. by rewrite IH.
Qed.

End Replace.

(** ** Occurrences that a replacement cannot create *)

Section NoOverlap.

Lemma ends_suffix (q s : str) : q ∈ ends s <-> q <> [] /\ q `suffix_of` s.
Proof.
  induction s as [|c s IH]; simpl.
  - split; [by intros ?%elem_of_nil|]. intros [Hq H%suffix_nil_inv]. done.
  - rewrite elem_of_cons, IH. split.
    + intros [-> | [Hq Hs]]; [done|]. split; [done | by apply suffix_cons_r].
    + intros [Hq Hs]. destruct q as [|x q]; [done|].
      apply suffix_cons_inv in Hs as [->|Hs]; [by left | by right].
Qed.

Lemma no_overlap_spec (p new : str) :
  no_overlap p new = true ->
  p <> [] /\
  (~ exists a b, p = a ++ new ++ b) /\
  (~ exists a b, new = a ++ p ++ b) /\
  (forall q, q <> [] -> q `suffix_of` p -> ~ q `prefix_of` new) /\
  (forall a, a <> [] -> a `suffix_of` new -> ~ a `prefix_of` p).
Proof.
  unfold no_overlap. rewrite !andb_true_iff, !negb_true_iff, !forallb_forall.
  intros [[[H1 H2] H3] H4].
  assert (Hends : forall x y : str,
            (forall q, In q (ends x) -> negb (startswith q y) = true) ->
            forall q, q <> [] -> q `suffix_of` x -> ~ q `prefix_of` y).
  { intros x y H q Hq Hs Hp. specialize (H q).
    rewrite (proj2 (startswith_prefix q y) Hp) in H. discriminate H.
    apply list_elem_of_In, ends_suffix. done. }
  split; [|split; [|split; [|split]]].
  - intros ->. by destruct new.
  - by apply contains_false.
  - by apply contains_false.
  - by apply Hends.
  - by apply Hends.
Qed.

(** An occurrence of [p] in [x ++ y] lies in [x], lies in [y], or starts
    in [x] and ends in [y]. *)
Lemma occurs_app (p x y : str) :
  (exists a b, x ++ y = a ++ p ++ b) ->
  (exists a b, x = a ++ p ++ b) \/
  (exists a b, y = a ++ p ++ b) \/
  (exists l r, l <> [] /\ r <> [] /\ p = l ++ r /\
     l `suffix_of` x /\ r `prefix_of` y).
Proof.
  intros (a & b & H). symmetry in H.
  apply app_eq_inv in H as [(k & Ha & Hy) | (k & Hx & Hpb)].
  - right. left. by exists k, b.
  - apply app_eq_inv in Hpb as [(k2 & Hp & Hy) | (k2 & Hk & Hb)].
    + destruct k as [|c k].
      * right. left. exists [], b. rewrite Hy. simpl in Hp. by subst.
      * destruct k2 as [|c2 k2].
        -- left. exists a, []. rewrite Hx, Hp. by rewrite !app_nil_r.
        -- right. right. exists (c :: k), (c2 :: k2).
           repeat split; try done; [by exists a | by exists b].
    + left. exists a, k2. by rewrite Hx, Hk.
Qed.

Variables old new p : str.
Hypothesis old_nonempty : old <> [].
Hypothesis Hno : no_overlap p new = true.

(** An end of [p] at the start of the new text was at the start of the
    old text, where no occurrence of [old] started. *)
Lemma end_at_start_survives (q s : str) :
  q <> [] -> q `suffix_of` p -> q `prefix_of` replace old new s ->
  q `prefix_of` s /\ ~ old `prefix_of` s.
Proof.
  destruct (no_overlap_spec p new Hno) as (_ & Hnp & _ & Hqn & _).
  revert q. induction s as [|c t IH]; intros q Hq Hsuf Hpre.
  - rewrite replace_nil in Hpre by done. by apply prefix_nil_inv in Hpre.
  - destruct (startswith old (c :: t)) eqn:Hst.
    + exfalso. apply startswith_prefix in Hst as [t' Ht']. rewrite Ht' in Hpre.
      rewrite replace_match in Hpre by done.
      destruct (prefix_weak_total q new (new ++ replace old new t') Hpre)
        as [Hqnew | [k Hk]]; [by apply prefix_app_r | by eapply Hqn |].
      destruct Hsuf as [k' ->]. apply Hnp. exists k', k. by rewrite Hk.
    + rewrite replace_skip in Hpre by done.
      apply startswith_false in Hst. split; [|done].
      destruct q as [|c' q']; [done|].
      pose proof (prefix_cons_inv_1 _ _ _ _ Hpre) as ->.
      apply prefix_cons_inv_2 in Hpre. apply prefix_cons.
      destruct q' as [|c2 q2]; [apply prefix_nil|].
      apply IH; [done| |done]. by eapply suffix_cons_l.
Qed.

(** Every occurrence of [p] after the replacement was there before, and
    [p] is not the text that was replaced. *)
Lemma occurrence_survives (s : str) :
  (exists a b, replace old new s = a ++ p ++ b) ->
  (exists a b, s = a ++ p ++ b) /\ p <> old.
Proof.
  destruct (no_overlap_spec p new Hno) as (Hp & _ & Hpn & _ & Hnq).
  remember (length s) as n eqn:Hn. revert s Hn.
  induction n as [n IH] using lt_wf_ind. intros s Hn Hocc.
  destruct s as [|c t].
  { rewrite replace_nil in Hocc by done. destruct Hocc as (a & b & H).
    destruct a, p; done. }
  destruct (startswith old (c :: t)) eqn:Hst.
  - apply startswith_prefix in Hst as [t' Ht']. rewrite Ht' in Hocc |- *.
    rewrite replace_match in Hocc by done.
    apply occurs_app in Hocc
      as [Hin | [Hin | (l & r & Hl & Hr & Hlr & Hsuf & Hpre)]].
    + done.
    + destruct (IH (length t')) with (s := t') as [(a & b & ->) Hne]; try done.
      { subst n. rewrite Ht', length_app. destruct old; [done | simpl; lia]. }
      split; [|done]. exists (old ++ a), b. by rewrite <- app_assoc.
    + exfalso. apply (Hnq l Hl Hsuf). exists r. done.
  - rewrite replace_skip in Hocc by done.
    destruct Hocc as (a & b & H). destruct a as [|c' a]; simpl in H.
    + destruct (end_at_start_survives p (c :: t)) as [[k Hk] Hnot]; [done..| |].
      { rewrite replace_skip by done. rewrite H. by exists b. }
      split; [exists [], k; by rewrite Hk|].
      intros ->. apply Hnot. by exists k.
    + injection H as Hc H. subst c'.
      destruct (IH (length t)) with (s := t) as [(a' & b' & ->) Hne]; try done.
      { subst n. simpl. lia. }
      { by exists a, b. }
      split; [|done]. by exists (c :: a'), b'.
Qed.

(** A pattern that is absent stays absent. *)
Lemma replace_keeps_absent (s : str) :
  contains p s = false -> contains p (replace old new s) = false.
Proof.
  intros Habs. apply contains_false. intros Hocc.
  apply occurrence_survives in Hocc as [Hocc _].
  apply contains_occurs in Hocc. congruence.
Qed.

End NoOverlap.

(** After its replacement a pattern is gone. *)
Lemma replace_removes (old new s : str) :
  no_overlap old new = true -> contains old (replace old new s) = false.
Proof.
  intros Hno. apply contains_false. intros Hocc.
  assert (Hold : old <> []) by apply (no_overlap_spec old new Hno).
  by apply (occurrence_survives old new old Hold Hno) in Hocc as [_ Hne].
Qed.

(** ** The whole rule list *)

Section Pipeline.

Lemma contains_nil (s : str) : contains [] s = true.
Proof. by destruct s. Qed.

Lemma apply_replacements_cons (rule : str * str) (rules : list (str * str)) (s : str) :
  apply_replacements (rule :: rules) s
  = apply_replacements rules (replace rule.1 rule.2 s).
Proof. reflexivity. Qed.

Lemma apply_replacements_app (rules1 rules2 : list (str * str)) (s : str) :
  apply_replacements (rules1 ++ rules2) s
  = apply_replacements rules2 (apply_replacements rules1 s).
Proof. unfold apply_replacements. by rewrite fold_left_app. Qed.

Lemma no_overlap_nonempty (p new : str) : no_overlap p new = true -> p <> [].
Proof. intros H. apply (no_overlap_spec p new H). Qed.

Lemma settled_nonempty (rules : list (str * str)) :
  settled rules = true -> Forall (fun rule => rule.1 <> []) rules.
Proof.
  induction rules as [|rule rest IH]; simpl; [constructor|].
  rewrite !andb_true_iff. intros [[Hown _] Hrest].
  constructor; [by eapply no_overlap_nonempty | by apply IH].
Qed.

(** A pattern that overlaps none of the replacement texts and is absent
    from a text is absent after all the rules. *)
Lemma apply_keeps_absent (p : str) (rules : list (str * str)) (s : str) :
  Forall (fun rule => rule.1 <> []) rules ->
  forallb (fun rule => no_overlap p rule.2) rules = true ->
  contains p s = false ->
  contains p (apply_replacements rules s) = false.
Proof.
  revert s. induction rules as [|rule rest IH]; intros s Hne Hno Habs; [done|].
  rewrite apply_replacements_cons. simpl in Hno.
  apply andb_true_iff in Hno as [Hno Hrest]. inversion Hne; subst.
  apply IH; [done..|]. by apply replace_keeps_absent.
Qed.

(** After a settled rule list no pattern of the list is left. *)
Lemma apply_removes_all (rules : list (str * str)) (s : str) :
  settled rules = true -> free_of rules (apply_replacements rules s) = true.
Proof.
  revert s. induction rules as [|rule rest IH]; intros s Hset; [done|].
  pose proof (settled_nonempty _ Hset) as Hne. inversion Hne; subst.
  simpl in Hset. rewrite !andb_true_iff in Hset. destruct Hset as [[Hown Hlater] Hrest].
  rewrite apply_replacements_cons. unfold free_of. cbn [forallb].
  apply andb_true_iff. split.
  - apply negb_true_iff, apply_keeps_absent; [done..|]. by apply replace_removes.
  - by apply IH.
Qed.

(** On a text without any of the patterns the rules change nothing. *)
Lemma apply_free (rules : list (str * str)) (s : str) :
  free_of rules s = true -> apply_replacements rules s = s.
Proof.
  induction rules as [|rule rest IH]; [done|]. unfold free_of. cbn [forallb].
  rewrite andb_true_iff, negb_true_iff. intros [Habs Hrest].
  rewrite apply_replacements_cons.
  destruct (decide (rule.1 = [])) as [Hnil|Hne].
  - rewrite Hnil, contains_nil in Habs. discriminate.
  - rewrite replace_absent by done. by apply IH.
Qed.

(** The seven rules of a name. *)
Lemma rules_of_name (name : str) :
  _generate_replacements name =
  [ (u "cpp-template", name);
    (u "cpp_template", snake name);
    (u "CPP-TEMPLATE", upper name);
    (u "CPP_TEMPLATE", upper (snake name));
    (u "CppTemplate", _to_camel_case name);
    (u "cpp_template", lower_snake name);
    (u "https://github.com/your-username/cpp-template",
     u "https://github.com/your-username/" ++ name) ].
Proof. reflexivity. Qed.

(** Rules 1 to 5 leave no [cpp_template] for rule 6. *)
Lemma nothing_left_for_rule_6 (name s : str) :
  snake_token_settled name = true ->
  contains (u "cpp_template")
    (apply_replacements (take 5 (_generate_replacements name)) s) = false.
Proof.
  unfold snake_token_settled. rewrite rules_of_name.
  cbn [take drop forallb fst snd]. rewrite !andb_true_iff.
  intros (H22 & H23 & H24 & H25 & _).
  rewrite apply_replacements_cons.
  rewrite (apply_replacements_cons (u "cpp_template", snake name)).
  cbn [fst snd].
  apply apply_keeps_absent.
  - repeat constructor; discriminate.
  - cbn [forallb fst snd]. by rewrite H23, H24, H25.
  - by apply replace_removes.
Qed.

End Pipeline.

(** C3, as amended: the earlier rule wins.  For a validated name of
    which the token [cpp_template] overlaps none of the replacement texts
    of rules 2 to 5, these rules leave no [cpp_template] in any text, so
    that rule 6 never replaces anything: the full rule list gives what
    the list without rule 6 gives.  The text [cpp_template] itself becomes
    the snake form of the name with its case kept, where no later pattern
    occurs in that form. *)
Theorem earlier_snake_rule_wins (name : str) :
  _validate_project_name name = Valid tt ->
  snake_token_settled name = true ->
  (forall text,
     apply_replacements (_generate_replacements name) text
     = apply_replacements (without_rule_6 (_generate_replacements name)) text) /\
  (free_of (drop 2 (_generate_replacements name)) (snake name) = true ->
   apply_replacements (_generate_replacements name) (u "cpp_template")
   = snake name).
Proof.
  intros _ Hset. split.
  - intros text. unfold without_rule_6.
    rewrite <- (take_drop 5 (_generate_replacements name)) at 1.
    rewrite !apply_replacements_app.
    pose proof (nothing_left_for_rule_6 name text Hset) as Habs.
    rewrite rules_of_name in Habs |- *. cbn [drop take] in Habs |- *.
    rewrite apply_replacements_cons. cbn [fst snd].
    by rewrite replace_absent.
  - intros Hfree. rewrite <- (take_drop 2 (_generate_replacements name)) at 1.
    rewrite apply_replacements_app.
    assert (Hstart : apply_replacements (take 2 (_generate_replacements name))
                       (u "cpp_template") = snake name).
    { rewrite rules_of_name. cbn [take]. rewrite !apply_replacements_cons.
      cbn [fst snd].
      rewrite (replace_absent (u "cpp-template")) by done.
      change (u "cpp_template") with (u "cpp_template" ++ []) at 2.
      rewrite replace_match, replace_nil by done.
      by rewrite app_nil_r. }
    rewrite Hstart. by apply apply_free.
Qed.

Lemma earlier_snake_rule_wins_witness :
  (forall text,
     apply_replacements (_generate_replacements (u "MyLib")) text
     = apply_replacements (without_rule_6 (_generate_replacements (u "MyLib"))) text) /\
  apply_replacements (_generate_replacements (u "MyLib")) (u "cpp_template")
  = snake (u "MyLib").
Proof.
  assert (Hset : snake_token_settled (u "MyLib") = true)
    by (vm_compute; reflexivity).
  destruct (earlier_snake_rule_wins (u "MyLib") eq_refl Hset) as [Hdead Htoken].
  split; [exact Hdead|]. apply Htoken. vm_compute. reflexivity.
Defined.

(** C3, as stated, fails for the name [MyLib] of the claim: the text
    [cpp_template] becomes [MyLib], the snake form with its case kept, and
    not the lower-cased snake form [mylib]. *)
Lemma later_snake_rule_does_not_win :
  let name := u "MyLib" in
  let text := u "cpp_template" in
  _validate_project_name name = Valid tt /\
  contains (u "cpp_template") text = true /\
  lower_snake name = u "mylib" /\
  apply_replacements (_generate_replacements name) text = u "MyLib" /\
  apply_replacements (_generate_replacements name) text <> lower_snake name.
Proof.
  cbv zeta.
  split; [vm_compute; reflexivity|].
  split; [vm_compute; reflexivity|].
  split; [vm_compute; reflexivity|].
  split; [vm_compute; reflexivity|].
  vm_compute. discriminate.
Qed.

(** C4, as amended: for a validated name, a second pass over the result
    of a first pass changes nothing, and a file that holds the result of a
    first pass is reported as having no changes and is not written,
    whenever the rule list of the name is settled (no pattern overlaps its
    own replacement text or that of a later rule) or, for the file at
    hand, the result of the first pass holds none of the patterns. *)
Theorem second_pass_changes_nothing (name F : str) :
  _validate_project_name name = Valid tt ->
  let rules := _generate_replacements name in
  settled rules = true \/ free_of rules (apply_replacements rules F) = true ->
  apply_replacements rules (apply_replacements rules F)
  = apply_replacements rules F /\
  (forall bk self p w f,
     __init__ name bk = Valid self ->
     files w !! p = Some (Regular f) -> readable f = true ->
     data f = Text (apply_replacements rules F) ->
     process_file self p w = (Ret false, say (NoChangesLine p) w)).
Proof.
  intros _. cbv zeta. intros Hset.
  set (once := apply_replacements (_generate_replacements name) F).
  assert (Hfree : free_of (_generate_replacements name) once = true).
  { destruct Hset as [Hset | Hfree]; [by apply apply_removes_all | done]. }
  assert (Hfix : apply_replacements (_generate_replacements name) once = once)
    by by apply apply_free.
  split; [exact Hfix|].
  intros bk self p w [d m rd wr] [_ ->]%init_fields Hp Hr Hd.
  cbn [readable data] in Hr, Hd. subst rd d.
  rewrite process_file_cases, Hp.
  cbn [readable data replacements negb]. cbv zeta.
  by rewrite Hfix, bool_decide_eq_true_2.
Qed.

Lemma second_pass_changes_nothing_witness :
  let rules := _generate_replacements (u "my-project") in
  let F := u "project(cpp-template) CppTemplate cpp_template CPP_TEMPLATE" in
  apply_replacements rules F
  = u "project(my-project) MyProject my_project MY_PROJECT" /\
  apply_replacements rules (apply_replacements rules F)
  = apply_replacements rules F.
Proof.
  intros rules F. split; [vm_compute; reflexivity|].
  apply (second_pass_changes_nothing (u "my-project") F).
  - reflexivity.
  - left. vm_compute. reflexivity.
Defined.

(** C4, as stated, fails for the name [p], which does not contain the
    base token: the first pass turns [cpcpp-template-template] into
    [cpp-template], and the second pass turns that into [p]. *)
Lemma second_pass_changes_file :
  let name := u "p" in
  let rules := _generate_replacements name in
  let F := u "cpcpp-template-template" in
  _validate_project_name name = Valid tt /\
  contains (u "cpp-template") name = false /\
  apply_replacements rules F = u "cpp-template" /\
  apply_replacements rules (apply_replacements rules F) = u "p" /\
  apply_replacements rules (apply_replacements rules F)
  <> apply_replacements rules F.
Proof.
  cbv zeta.
  split; [vm_compute; reflexivity|].
  split; [vm_compute; reflexivity|].
  split; [vm_compute; reflexivity|].
  split; [vm_compute; reflexivity|].
  vm_compute. discriminate.
Qed.

(** ** The forms of a name *)

Section NameForms.

(** Replacing one character by another is a character-wise map. *)
Lemma replace_char_map (a b : char) (s : str) :
  replace [a] [b] s = map (fun c => if c =? a then b else c) s.
Proof.
  induction s as [|c t IH]; [reflexivity|]. simpl map.
  destruct (N.eqb_spec c a) as [->|Hne].
  - change (a :: t) with ([a] ++ t). rewrite replace_match by done.
    by rewrite IH.
  - assert (Hst : startswith [a] (c :: t) = false).
    { simpl. rewrite andb_true_r. apply N.eqb_neq. congruence. }
    rewrite (replace_skip [a] [b] (ltac:(done)) c t Hst). by rewrite IH.
Qed.

Lemma snake_form_lengths (name : str) : length (snake name) = length name.
Proof.
  unfold snake. change (u "-") with [hyphen]. change (u "_") with [underscore].
  rewrite replace_char_map. apply length_map.
Qed.

Lemma camel_scan_split (s : str) :
  camel_scan true s = join (map capitalize (re_split_sep s)) /\
  camel_scan false s
  = lower (hd [] (re_split_sep s)) ++ join (map capitalize (tl (re_split_sep s))).
Proof.
  unfold join. induction s as [|c t [IHt IHf]]; [done|]. simpl.
  destruct (is_sep c); simpl; [by rewrite IHt|].
  pose proof (re_split_sep_nonempty t) as Hne.
  destruct (re_split_sep t) as [|w ws]; [done|]. simpl in *.
  by rewrite IHf.
Qed.

Lemma upper_char_class (c : char) :
  class_name c = true -> is_sep c = false ->
  class_name (upper_char c) = true /\ is_sep (upper_char c) = false.
Proof.
  intros H Hs. unfold upper_char. destruct (is_lower c) eqn:Hl; [|done].
  apply andb_true_iff in Hl as [H1 H2]. apply N.leb_le in H1, H2.
  assert (Hup : is_upper (c - 32) = true).
  { apply andb_true_iff. split; apply N.leb_le; lia. }
  split.
  - unfold class_name. by rewrite Hup, orb_true_r.
  - apply orb_false_iff. unfold hyphen, underscore.
    split; apply N.eqb_neq; lia.
Qed.

Lemma lower_char_class (c : char) :
  class_name c = true -> is_sep c = false ->
  class_name (lower_char c) = true /\ is_sep (lower_char c) = false.
Proof.
  intros H Hs. unfold lower_char. destruct (is_upper c) eqn:Hl; [|done].
  apply andb_true_iff in Hl as [H1 H2]. apply N.leb_le in H1, H2.
  assert (Hlow : is_lower (c + 32) = true).
  { apply andb_true_iff. split; apply N.leb_le; lia. }
  split.
  - unfold class_name. by rewrite Hlow.
  - apply orb_false_iff. unfold hyphen, underscore.
    split; apply N.eqb_neq; lia.
Qed.

Lemma case_char_not_sep (start : bool) (c : char) :
  is_sep c = false ->
  is_sep (if start then upper_char c else lower_char c) = false.
Proof.
  intros Hs. apply orb_false_iff in Hs as [Hh Hu].
  apply N.eqb_neq in Hh, Hu. unfold hyphen, underscore in *.
  destruct start; [unfold upper_char | unfold lower_char].
  - destruct (is_lower c) eqn:Hl.
    + apply andb_true_iff in Hl as [H1 H2]. apply N.leb_le in H1, H2.
      apply orb_false_iff. unfold hyphen, underscore.
      split; apply N.eqb_neq; lia.
    + apply orb_false_iff. split; by apply N.eqb_neq.
  - destruct (is_upper c) eqn:Hl.
    + apply andb_true_iff in Hl as [H1 H2]. apply N.leb_le in H1, H2.
      apply orb_false_iff. unfold hyphen, underscore.
      split; apply N.eqb_neq; lia.
    + apply orb_false_iff. split; by apply N.eqb_neq.
Qed.

Lemma camel_scan_no_sep (start : bool) (s : str) :
  Forall (fun c => is_sep c = false) (camel_scan start s).
Proof.
  revert start. induction s as [|c t IH]; intros start; simpl; [constructor|].
  destruct (is_sep c) eqn:Hs; [apply IH|].
  constructor; [by apply case_char_not_sep | apply IH].
Qed.

Lemma camel_scan_length (start : bool) (s : str) :
  (length (camel_scan start s) <= length s)%nat.
Proof.
  revert start. induction s as [|c t IH]; intros start; simpl; [lia|].
  destruct (is_sep c); simpl.
  - specialize (IH true). lia.
  - specialize (IH false). lia.
Qed.

Lemma camel_scan_class (start : bool) (s : str) :
  Forall (fun c => class_name c = true) s ->
  Forall (fun c => class_name c = true) (camel_scan start s).
Proof.
  revert start. induction s as [|c t IH]; intros start Hs; simpl; [constructor|].
  inversion Hs; subst. destruct (is_sep c) eqn:Hsep; [by apply IH|].
  constructor; [|by apply IH].
  destruct start; [by apply upper_char_class | by apply lower_char_class].
Qed.

Lemma sep_not_letter (c : char) : class_letter c = true -> is_sep c = false.
Proof.
  unfold class_letter, is_sep, is_lower, is_upper, hyphen, underscore.
  intros H. apply orb_false_iff.
  apply orb_true_iff in H as [H|H]; apply andb_true_iff in H as [H1 H2];
    apply N.leb_le in H1, H2; split; apply N.eqb_neq; lia.
Qed.

Lemma upper_char_letter (c : char) :
  class_letter c = true -> class_letter (upper_char c) = true.
Proof.
  intros H. unfold upper_char. destruct (is_lower c) eqn:Hl; [|done].
  apply andb_true_iff in Hl as [H1 H2]. apply N.leb_le in H1, H2.
  unfold class_letter. apply orb_true_iff. right.
  apply andb_true_iff. split; apply N.leb_le; lia.
Qed.

Lemma lower_char_letter (c : char) :
  class_letter c = true -> class_letter (lower_char c) = true.
Proof.
  intros H. unfold lower_char. destruct (is_upper c) eqn:Hl; [|done].
  apply andb_true_iff in Hl as [H1 H2]. apply N.leb_le in H1, H2.
  unfold class_letter. apply orb_true_iff. left.
  apply andb_true_iff. split; apply N.leb_le; lia.
Qed.

Lemma upper_char_name (c : char) :
  class_name c = true -> class_name (upper_char c) = true.
Proof.
  intros H. destruct (is_sep c) eqn:Hs; [|by apply upper_char_class].
  unfold upper_char. destruct (is_lower c) eqn:Hl; [|done].
  apply orb_true_iff in Hs as [Hs|Hs]; apply N.eqb_eq in Hs; subst; done.
Qed.

Lemma lower_char_name (c : char) :
  class_name c = true -> class_name (lower_char c) = true.
Proof.
  intros H. destruct (is_sep c) eqn:Hs; [|by apply lower_char_class].
  unfold lower_char. destruct (is_upper c) eqn:Hl; [|done].
  apply orb_true_iff in Hs as [Hs|Hs]; apply N.eqb_eq in Hs; subst; done.
Qed.

(** A character-wise map that keeps letters letters and name characters
    name characters keeps well-formed names well-formed. *)
Lemma well_formed_map (f : char -> char) (name : str) :
  (forall c, class_letter c = true -> class_letter (f c) = true) ->
  (forall c, class_name c = true -> class_name (f c) = true) ->
  well_formed_name name -> well_formed_name (map f name).
Proof.
  intros Hl Hn. destruct name as [|c t]; [done|]. intros [Hc Ht].
  split; [by apply Hl|]. apply Forall_map.
  eapply Forall_impl; [exact Ht|]. intros d. apply Hn.
Qed.

Lemma well_formed_valid (name : str) :
  well_formed_name name -> (length name <= 50)%nat ->
  _validate_project_name name = Valid tt.
Proof.
  intros Hwf Hlen. apply validate_spec. split; [|done].
  apply re_match_name_spec. by left.
Qed.

Lemma well_formed_snake (name : str) :
  well_formed_name name -> well_formed_name (snake name).
Proof.
  unfold snake. change (u "-") with [hyphen]. change (u "_") with [underscore].
  rewrite replace_char_map. apply well_formed_map.
  - intros c Hc. destruct (N.eqb_spec c hyphen) as [->|]; done.
  - intros c Hc. destruct (N.eqb_spec c hyphen) as [->|]; done.
Qed.

Lemma well_formed_camel (name : str) :
  well_formed_name name -> well_formed_name (_to_camel_case name).
Proof.
  unfold _to_camel_case. rewrite <- (proj1 (camel_scan_split name)).
  destruct name as [|c t]; [done|]. intros [Hc Ht]. simpl.
  rewrite (sep_not_letter c Hc). split; [by apply upper_char_letter|].
  by apply camel_scan_class.
Qed.

End NameForms.

(** X1: the snake form of a name is the name with every hyphen turned
    into an underscore, character by character: it has the length of the
    name and no hyphen. *)
Theorem snake_form_char_by_char (name : str) :
  snake name = map (fun c => if c =? hyphen then underscore else c) name /\
  length (snake name) = length name /\
  hyphen ∉ snake name.
Proof.
  assert (Hmap : snake name
                 = map (fun c => if c =? hyphen then underscore else c) name).
  { unfold snake. change (u "-") with [hyphen]. change (u "_") with [underscore].
    apply replace_char_map. }
  split; [exact Hmap|]. rewrite Hmap. split; [apply length_map|].
  intros (c & Hc & _)%list_elem_of_fmap.
  destruct (N.eqb_spec c hyphen) as [Heq|Hne]; [discriminate Hc | congruence].
Qed.


(** X3: every replacement text that rules 1 to 6 derive from a
    well-formed name of at most 50 characters (the name, its snake, upper,
    upper snake, CamelCase and lower snake forms) is again a name that
    passes validation. *)
Theorem derived_forms_are_valid_names (name : str) :
  well_formed_name name -> (length name <= 50)%nat ->
  Forall (fun rule => _validate_project_name rule.2 = Valid tt)
         (take 6 (_generate_replacements name)).
Proof.
  intros Hwf Hlen. rewrite rules_of_name. cbn [take].
  pose proof (well_formed_snake name Hwf) as Hsnake.
  assert (Hslen : length (snake name) = length name)
    by apply snake_form_lengths.
  repeat constructor; cbn [snd]; apply well_formed_valid.
  - done.
  - done.
  - done.
  - lia.
  - by apply well_formed_map; [apply upper_char_letter | apply upper_char_name |].
  - unfold upper. rewrite length_map. lia.
  - by apply well_formed_map; [apply upper_char_letter | apply upper_char_name |].
  - unfold upper. rewrite length_map. lia.
  - by apply well_formed_camel.
  - pose proof (camel_scan_length true name).
    unfold _to_camel_case. rewrite <- (proj1 (camel_scan_split name)). lia.
  - by apply well_formed_map; [apply lower_char_letter | apply lower_char_name |].
  - unfold lower_snake, lower. rewrite length_map. lia.
Qed.

Lemma derived_forms_are_valid_names_witness :
  Forall (fun rule => _validate_project_name rule.2 = Valid tt)
         (take 6 (_generate_replacements (u "game-engine_2"))).
Proof.
  apply (derived_forms_are_valid_names (u "game-engine_2")).
  - split; [reflexivity|]. repeat constructor.
  - simpl. lia.
Defined.

(** ** Rules that never fire and texts that are left alone *)

Section DeadRules.

Lemma contains_within (a b s : str) :
  contains a b = true -> contains a s = false -> contains b s = false.
Proof.
  intros (x & y & ->)%contains_occurs Habs. apply contains_false.
  intros (x' & y' & ->). apply contains_false in Habs. apply Habs.
  exists (x' ++ x), (y ++ y'). by rewrite <- !app_assoc.
Qed.

(** A text without the five placeholder forms has none of the patterns
    of the seven rules. *)
Lemma free_of_placeholder_forms (name s : str) :
  Forall (fun p => contains p s = false) placeholder_forms ->
  free_of (_generate_replacements name) s = true.
Proof.
  intros H. unfold placeholder_forms in H.
  apply Forall_cons in H as [H1 H]. apply Forall_cons in H as [H2 H].
  apply Forall_cons in H as [H3 H]. apply Forall_cons in H as [H4 H].
  apply Forall_cons in H as [H5 _].
  rewrite rules_of_name. unfold free_of. cbn [forallb fst].
  rewrite H1, H2, H3, H4, H5.
  rewrite (contains_within (u "cpp-template")
             (u "https://github.com/your-username/cpp-template") s) by done.
  reflexivity.
Qed.

End DeadRules.

(** X4: the URL rule (rule 7) is redundant.  Rule 1 already turns the
    template URL into the URL with the new name, and for a name of which
    the base token overlaps none of the replacement texts of rules 1 to 6,
    rule 7 never replaces anything: on every text the seven rules give what
    the first six give. *)
Theorem url_rule_never_fires (name : str) :
  replace (u "cpp-template") name
          (u "https://github.com/your-username/cpp-template")
  = u "https://github.com/your-username/" ++ name /\
  (base_token_settled name = true ->
   forall text,
     apply_replacements (_generate_replacements name) text
     = apply_replacements (take 6 (_generate_replacements name)) text).
Proof.
  split.
  - change (u "https://github.com/your-username/cpp-template")
      with (u "https://github.com/your-username/" ++ u "cpp-template" ++ []).
    assert (Hskip : forall pre rest : str,
              Forall (fun k => startswith (u "cpp-template") (drop k pre ++ rest)
                               = false) (seq 0 (length pre)) ->
              replace (u "cpp-template") name (pre ++ rest)
              = pre ++ replace (u "cpp-template") name rest).
    { intros pre rest. induction pre as [|c pre IH]; [done|].
      intros H. simpl in H. apply Forall_cons in H as [H0 H].
      rewrite <- app_comm_cons, replace_skip by done.
      rewrite IH; [done|]. rewrite <- seq_shift in H.
      apply Forall_map in H. exact H. }
    rewrite Hskip.
    + by rewrite replace_match, replace_nil, app_nil_r.
    + apply (bool_decide_unpack _). vm_compute. exact I.
  - unfold base_token_settled. intros Hset text.
    rewrite <- (take_drop 6 (_generate_replacements name)) at 1.
    rewrite apply_replacements_app.
    assert (Habs : contains (u "cpp-template")
                     (apply_replacements (take 6 (_generate_replacements name)) text)
                   = false).
    { rewrite rules_of_name in Hset |- *. cbn [take] in Hset |- *.
      rewrite apply_replacements_cons. cbn [fst snd].
      cbn [forallb snd] in Hset. apply andb_true_iff in Hset as [H1 Hrest].
      apply apply_keeps_absent.
      - repeat constructor; discriminate.
      - exact Hrest.
      - by apply replace_removes. }
    rewrite rules_of_name. cbn [drop]. rewrite apply_replacements_cons.
    cbn [fst snd]. rewrite replace_absent; [done..|].
    by apply (contains_within (u "cpp-template")).
Qed.

Lemma url_rule_never_fires_witness :
  base_token_settled (u "my-project") = true /\
  (forall text,
     apply_replacements (_generate_replacements (u "my-project")) text
     = apply_replacements (take 6 (_generate_replacements (u "my-project"))) text).
Proof.
  split; [vm_compute; reflexivity|].
  apply (proj2 (url_rule_never_fires (u "my-project"))).
  vm_compute. reflexivity.
Defined.

(** X5: a file that holds none of the five placeholder forms is left
    alone, whatever the new name: the rules do not change its text, and
    [process_file] reports no changes and does not write it. *)
Theorem file_without_placeholder_left_alone
    (name : str) (bk : bool) (self : PlaceholderReplacer)
    (p : path) (w : world) (f : file) (s : str) :
  __init__ name bk = Valid self ->
  files w !! p = Some (Regular f) -> readable f = true -> data f = Text s ->
  Forall (fun form => contains form s = false) placeholder_forms ->
  apply_replacements (replacements self) s = s /\
  process_file self p w = (Ret false, say (NoChangesLine p) w).
Proof.
  intros [_ ->]%init_fields Hp Hr Hd Hfree. cbn [replacements].
  assert (Hsame : apply_replacements (_generate_replacements name) s = s).
  { by apply apply_free, free_of_placeholder_forms. }
  split; [exact Hsame|].
  destruct f as [d m rd wr]. cbn [readable data] in Hr, Hd. subst rd d.
  rewrite process_file_cases, Hp. cbn [readable data replacements negb]. cbv zeta.
  by rewrite Hsame, bool_decide_eq_true_2.
Qed.

Lemma file_without_placeholder_left_alone_witness :
  let w := world_of [ ([], Dir); ([u "README.md"], plain (u "# A C++ project")) ] in
  apply_replacements (replacements my_project_replacer) (u "# A C++ project")
  = u "# A C++ project" /\
  process_file my_project_replacer [u "README.md"] w
  = (Ret false, say (NoChangesLine [u "README.md"]) w).
Proof.
  intros w.
  apply (file_without_placeholder_left_alone (u "my-project") true
           my_project_replacer [u "README.md"] w
           (File (Text (u "# A C++ project")) 0 true true) (u "# A C++ project")).
  - reflexivity.
  - vm_compute. reflexivity.
  - reflexivity.
  - reflexivity.
  - repeat constructor.
Defined.

(** X6: for a name whose rule list is settled, a target that can be read
    and written holds, after [process_file], the text that the rules give,
    and none of the patterns of the rules occurs in it any more. *)
Theorem processed_file_has_no_placeholder
    (name : str) (bk : bool) (self : PlaceholderReplacer)
    (p : path) (w : world) (f : file) (s : str) :
  __init__ name bk = Valid self ->
  settled (_generate_replacements name) = true ->
  files w !! p = Some (Regular f) ->
  readable f = true -> writable f = true -> data f = Text s ->
  exists f',
    files (process_file self p w).2 !! p = Some (Regular f') /\
    data f' = Text (apply_replacements (replacements self) s) /\
    free_of (replacements self) (apply_replacements (replacements self) s) = true.
Proof.
  intros [_ ->]%init_fields Hset Hp Hr Hw Hd. cbn [replacements].
  destruct f as [d m rd wr]. cbn [readable writable data] in Hr, Hw, Hd.
  subst rd wr d.
  rewrite process_file_cases, Hp. cbn [readable writable data replacements negb].
  cbv zeta.
  pose proof (apply_removes_all _ s Hset) as Hfree.
  case_bool_decide as Hsame.
  - eexists. cbn [snd say files]. split; [exact Hp|]. cbn [data].
    split; [by rewrite Hsame | exact Hfree].
  - eexists. cbn [snd say written files]. rewrite lookup_insert_eq.
    split; [reflexivity|]. cbn [data]. split; [reflexivity | exact Hfree].
Qed.

Lemma processed_file_has_no_placeholder_witness :
  exists f',
    files (process_file my_project_replacer [u "CMakeLists.txt"]
             small_project_world).2 !! [u "CMakeLists.txt"]
    = Some (Regular f') /\
    data f' = Text (apply_replacements (replacements my_project_replacer)
                      (u "project(cpp-template)")) /\
    free_of (replacements my_project_replacer)
      (apply_replacements (replacements my_project_replacer)
         (u "project(cpp-template)")) = true.
Proof.
  apply (processed_file_has_no_placeholder (u "my-project") true
           my_project_replacer [u "CMakeLists.txt"] small_project_world
           (File (Text (u "project(cpp-template)")) 0 true true)
           (u "project(cpp-template)")).
  - reflexivity.
  - vm_compute. reflexivity.
  - vm_compute. reflexivity.
  - reflexivity.
  - reflexivity.
  - reflexivity.
Defined.

(** ** What the replacement pass touches and counts *)

Section PassFrame.

Lemma filter_iff_on {A} (P1 P2 : A -> Prop)
    `{!forall x, Decision (P1 x), !forall x, Decision (P2 x)} (l : list A) :
  (forall x, x ∈ l -> P1 x <-> P2 x) -> filter P1 l = filter P2 l.
Proof.
  induction l as [|a l IH]; intros Hiff; [done|].
  rewrite !filter_cons.
  assert (Ha : P1 a <-> P2 a) by (apply Hiff; by left).
  rewrite IH by (intros x Hx; apply Hiff; by right).
  destruct (decide (P1 a)), (decide (P2 a)); tauto.
Qed.

Variable self : PlaceholderReplacer.

(** [process_file] returns [True] exactly when it has changed the file. *)
Lemma process_file_true_iff_changed (p : path) (w : world) :
  exists b w1, process_file self p w = (Ret b, w1) /\
    (b = true <-> files w1 !! p <> files w !! p).
Proof.
  destruct (process_file self p w) as [r w1] eqn:Hpf.
  rewrite process_file_cases in Hpf.
  assert (Hsame : forall l : line,
            (r, w1) = (Ret false, say l w) ->
            exists b w2, (r, w1) = (Ret b, w2) /\
              (b = true <-> files w2 !! p <> files w !! p)).
  { intros l [= -> ->]. exists false, (say l w). split; [done|].
    cbn [say files]. split; [done | intros H; by destruct H]. }
  destruct (files w !! p) as [[[d m rd wr]|]|] eqn:E; cbn [readable data writable] in Hpf;
    [|by eapply Hsame..].
  destruct rd; cbn [negb] in Hpf; [|by eapply Hsame].
  destruct d as [s|]; [|by eapply Hsame].
  cbv zeta in Hpf. case_bool_decide as Hs; [by eapply Hsame|].
  destruct wr; cbn [negb] in Hpf; [|by eapply Hsame].
  injection Hpf as <- <-. eexists _, _. split; [reflexivity|].
  cbn [say written files]. rewrite lookup_insert_eq.
  split; [|done]. intros _ [= Heq]. done.
Qed.

(** The loop counts in [updated] the targets it has changed. *)
Lemma process_loop_counts (l : list path) (stats : Stats) (w : world) :
  NoDup l ->
  exists stats' w', process_loop self l stats w = (Ret stats', w') /\
    updated stats'
    = (updated stats
       + length (filter (fun p => files w' !! p <> files w !! p) l))%nat.
Proof.
  revert stats w. induction l as [|p rest IH]; intros stats w Hnd.
  - exists stats, w. split; [reflexivity|]. simpl. lia.
  - apply NoDup_cons in Hnd as [Hp Hnd]. simpl. unfold bind.
    destruct (process_file_true_iff_changed p w) as (b & w1 & Hpf & Hb).
    destruct (process_file_returns self p w) as (b' & w1' & Hpf' & _ & Hother).
    rewrite Hpf in Hpf'. injection Hpf' as <- <-. rewrite Hpf.
    match goal with |- context [process_loop self rest ?st w1] =>
      destruct (IH st w1 Hnd) as (stats' & w' & Hloop & Hupd);
      destruct (process_loop_returns self rest st w1)
        as (stats2 & w2 & Hloop2 & _ & _ & _ & _ & Hframe)
    end.
    rewrite Hloop in Hloop2. injection Hloop2 as <- <-.
    exists stats', w'. split; [exact Hloop|]. rewrite Hupd.
    assert (Hrest : filter (fun q => files w' !! q <> files w1 !! q) rest
                    = filter (fun q => files w' !! q <> files w !! q) rest).
    { apply filter_iff_on. intros q Hq.
      rewrite Hother; [done|]. intros ->. done. }
    rewrite Hrest, filter_cons.
    rewrite (Hframe p Hp).
    destruct b; simpl.
    + rewrite decide_True by (by apply Hb). simpl. lia.
    + rewrite decide_False; [lia|]. intros Hne. apply Hb in Hne. done.
Qed.

End PassFrame.




(** ** The driver *)

Section Driver.

(** [main], check by check. *)
Lemma main_cases (args : Args) (w : world) :
  main args w =
  match files w !! [] with
  | None => (Exit 1, say RootMissingLine w)
  | Some _ =>
      match files w !! [u "CMakeLists.txt"] with
      | None => (Exit 1, say NoCMakeListsLine w)
      | Some _ =>
          match read_text [u "CMakeLists.txt"] w with
          | (Ret cmake_content, _) =>
              if contains (u "project(" ++ project_name args) cmake_content then
                match stdin w with
                | [] => (Raise EOFError, say (AlreadyUsesLine (project_name args)) w)
                | response :: rest =>
                    if eqb (lower response) (u "y")
                    then main_after_prompt args (asked (project_name args) rest w)
                    else (Exit 0,
                          say AbortedLine (asked (project_name args) rest w))
                end
              else main_after_prompt args w
          | (Raise e, _) => (Raise e, w)
          | (Exit c, _) => (Exit c, w)
          end
      end
  end.
Proof.
  unfold main.
  destruct (files w !! []) as [x|] eqn:Hroot.
  2:{ rewrite (bind_returned _ _ w w false)
        by (unfold path_exists; rewrite Hroot; reflexivity).
      reflexivity. }
  rewrite (bind_returned _ _ w w true)
    by (unfold path_exists; rewrite Hroot; reflexivity).
  cbv beta iota zeta delta [negb].
  destruct (files w !! [u "CMakeLists.txt"]) as [y|] eqn:Hcmake.
  2:{ rewrite (bind_returned _ _ w w false)
        by (unfold path_exists; rewrite Hcmake; reflexivity).
      reflexivity. }
  rewrite (bind_returned _ _ w w true)
    by (unfold path_exists; rewrite Hcmake; reflexivity).
  cbv beta iota zeta delta [negb].
  assert (Hread : forall r w', read_text [u "CMakeLists.txt"] w = (r, w') -> w' = w).
  { intros r w'. unfold read_text. rewrite Hcmake.
    destruct y as [[d m rd wr]|]; cbn [readable data]; [|by intros [= _ <-]].
    destruct rd; cbn [negb]; [|by intros [= _ <-]].
    destruct d; by intros [= _ <-]. }
  unfold bind at 1.
  destruct (read_text [u "CMakeLists.txt"] w) as [[content|e|c] w'] eqn:Hr;
    pose proof (Hread _ _ eq_refl) as ->; [|reflexivity..].
  destruct (contains (u "project(" ++ project_name args) content); unfold when.
  - unfold bind at 1.
    rewrite (bind_returned _ _ w (say (AlreadyUsesLine (project_name args)) w) tt)
      by reflexivity.
    unfold bind at 1, input. cbn [stdin say].
    destruct (stdin w) as [|response rest]; [reflexivity|].
    fold (asked (project_name args) rest w).
    destruct (eqb (lower response) (u "y")); cbn [negb].
    + reflexivity.
    + reflexivity.
  - rewrite (bind_returned _ _ w w tt) by reflexivity. reflexivity.
Qed.

Lemma main_after_prompt_invalid (args : Args) (w : world) :
  _validate_project_name (project_name args) <> Valid tt ->
  exists e w', main_after_prompt args w = (Raise (NameError e), w') /\
    files w' = files w /\ now w' = now w.
Proof.
  intros Hbad. unfold main_after_prompt, __init__.
  destruct (_validate_project_name (project_name args)) as [[]|e]; [done|].
  exists e. destruct (dry_run args); eexists; split; reflexivity || done.
Qed.

End Driver.

(** X9: [main] gives up before the name is looked at, with nothing
    changed, in three cases: the project root does not exist (status 1),
    the root has no CMakeLists.txt (status 1), or the CMakeLists.txt
    already uses the name and the operator answers the question with
    anything but [y] or [Y] (status 0). *)
Theorem main_gives_up_early (args : Args) (w : world) :
  (files w !! [] = None -> main args w = (Exit 1, say RootMissingLine w)) /\
  (is_Some (files w !! []) -> files w !! [u "CMakeLists.txt"] = None ->
   main args w = (Exit 1, say NoCMakeListsLine w)) /\
  (forall f content response rest,
     is_Some (files w !! []) ->
     files w !! [u "CMakeLists.txt"] = Some (Regular f) ->
     readable f = true -> data f = Text content ->
     contains (u "project(" ++ project_name args) content = true ->
     stdin w = response :: rest ->
     response <> u "y" -> response <> u "Y" ->
     main args w
     = (Exit 0, say AbortedLine (asked (project_name args) rest w))).
Proof.
  rewrite main_cases. split; [by intros ->|]. split.
  - by intros [x ->] ->.
  - intros [d m rd wr] content response rest [x ->] Hcmake Hr Hd Hc Hin Hy HY.
    cbn [readable data] in Hr, Hd. subst rd d.
    rewrite Hcmake. unfold read_text. rewrite Hcmake. cbn [readable data negb].
    rewrite Hc, Hin.
    assert (Hno : eqb (lower response) (u "y") = false).
    { apply bool_decide_eq_false_2. intros Hl.
      change (u "y") with [121] in Hl, Hy. change (u "Y") with [89] in HY.
      destruct response as [|c [|c2 r]]; try discriminate Hl.
      injection Hl as Hl. unfold lower_char in Hl.
      destruct (is_upper c) eqn:Hu.
      - apply HY. f_equal. lia.
      - apply Hy. by f_equal. }
    by rewrite Hno.
Qed.

Lemma main_gives_up_early_witness :
  let w := World (files small_project_world) 1 [u "no"] [] in
  let args := mkArgs (u "cpp-template") false false in
  main args w
  = (Exit 0, say AbortedLine (asked (u "cpp-template") [] w)).
Proof.
  intros w args.
  apply (proj2 (proj2 (main_gives_up_early args w))
           (File (Text (u "project(cpp-template)")) 0 true true)
           (u "project(cpp-template)") (u "no") []).
  - vm_compute. eauto.
  - vm_compute. reflexivity.
  - reflexivity.
  - reflexivity.
  - vm_compute. reflexivity.
  - reflexivity.
  - discriminate.
  - discriminate.
Defined.

(** X10: with a name that does not pass validation [main] changes no
    file, whatever the flags and the tree, and never returns normally: it
    ends with status 1, or with status 0 when the operator has declined
    the question about a name already in use. *)
Theorem invalid_name_changes_nothing (args : Args) (w : world) :
  _validate_project_name (project_name args) <> Valid tt ->
  files (main args w).2 = files w /\ now (main args w).2 = now w /\
  (exit_status (main args w).1 = 1%nat /\ (main args w).1 <> Ret tt \/
   exists w1, main args w = (Exit 0, say AbortedLine w1)).
Proof.
  intros Hbad. rewrite main_cases.
  destruct (files w !! []) as [x|]; [|by repeat split; left].
  destruct (files w !! [u "CMakeLists.txt"]) as [y|]; [|by repeat split; left].
  assert (Hread : forall r w', read_text [u "CMakeLists.txt"] w = (r, w') ->
                    match r with Exit _ => False | _ => True end).
  { intros r w'. unfold read_text.
    destruct (files w !! [u "CMakeLists.txt"]) as [[[d m rd wr]|]|];
      cbn [readable data]; try by intros [= <- _].
    destruct rd; cbn [negb]; [|by intros [= <- _]].
    destruct d; by intros [= <- _]. }
  destruct (read_text [u "CMakeLists.txt"] w) as [[content|e|c] w'] eqn:Hr;
    [| by repeat split; left | by destruct (Hread _ _ eq_refl)].
  destruct (contains (u "project(" ++ project_name args) content).
  - destruct (stdin w) as [|response rest]; [by repeat split; left|].
    destruct (eqb (lower response) (u "y")).
    + destruct (main_after_prompt_invalid args
                  (asked (project_name args) rest w) Hbad)
        as (e & w1 & -> & Hf & Hn).
      cbn [fst snd]. rewrite Hf, Hn. by repeat split; left.
    + repeat split. right. by eexists.
  - destruct (main_after_prompt_invalid args w Hbad) as (e & w1 & -> & Hf & Hn).
    cbn [fst snd]. rewrite Hf, Hn. by repeat split; left.
Qed.

Lemma invalid_name_changes_nothing_witness :
  let args := mkArgs (u "bad name!") false false in
  files (main args small_project_world).2 = files small_project_world /\
  now (main args small_project_world).2 = now small_project_world /\
  (exit_status (main args small_project_world).1 = 1%nat /\
   (main args small_project_world).1 <> Ret tt \/
   exists w1, main args small_project_world = (Exit 0, say AbortedLine w1)).
Proof.
  intros args.
  apply (invalid_name_changes_nothing args small_project_world).
  vm_compute. discriminate.
Defined.

(** ** How a run ends *)

Section RunEnds.

Lemma never_exits_ret {A} (a : A) : never_exits (ret a).
Proof. by intros w c. Qed.

Lemma never_exits_print (l : line) : never_exits (print l).
Proof. by intros w c. Qed.

Lemma never_exits_path_exists (p : path) : never_exits (path_exists p).
Proof. by intros w c. Qed.

Lemma never_exits_read_text (p : path) : never_exits (read_text p).
Proof.
  intros w c. unfold read_text.
  destruct (files w !! p) as [[f|]|]; simpl; try done.
  destruct (readable f); simpl; [|done]. by destruct (data f).
Qed.

Lemma never_exits_write_text (p : path) (s : str) : never_exits (write_text p s).
Proof.
  intros w c. unfold write_text.
  destruct (files w !! p) as [[f|]|]; simpl; try done.
  - by destruct (writable f).
  - by destruct (files w !! parent p) as [[g|]|].
Qed.

Lemma never_exits_rmtree (d : path) : never_exits (rmtree d).
Proof. intros w c. unfold rmtree. by destruct (files w !! d) as [[f|]|]. Qed.

Lemma never_exits_mkdir (d : path) : never_exits (mkdir d).
Proof.
  intros w c. unfold mkdir. destruct (files w !! d); [done|].
  by destruct (files w !! parent d) as [[f|]|].
Qed.

Lemma never_exits_mkdir_parents (d : path) : never_exits (mkdir_parents d).
Proof.
  intros w c. pose proof (mkdir_from_cases [] d w) as H. unfold mkdir_parents.
  by destruct (mkdir_from [] d w) as [[[]|e|n] w'].
Qed.

Lemma never_exits_copy2 (src dst : path) : never_exits (copy2 src dst).
Proof.
  intros w c. pose proof (copy2_cases src dst w) as H.
  by destruct (copy2 src dst w) as [[[]|e|n] w'].
Qed.

Lemma never_exits_rename (src dst : path) : never_exits (rename src dst).
Proof.
  intros w c. unfold rename.
  destruct (files w !! src); [|done]. destruct (files w !! dst); [done|].
  by destruct (files w !! parent dst) as [[f|]|].
Qed.

Lemma never_exits_rglob (name : str) : never_exits (rglob name).
Proof. by intros w c. Qed.

Lemma never_exits_bind {A B} (m : io A) (k : A -> io B) :
  never_exits m -> (forall a, never_exits (k a)) -> never_exits (bind m k).
Proof.
  intros Hm Hk w c. unfold bind. specialize (Hm w).
  destruct (m w) as [[a|e|n] w1]; simpl in *; [apply Hk | done | by destruct (Hm n)].
Qed.

Lemma never_exits_try_except {A} (body : io A) (handler : exn -> io A) :
  never_exits body -> (forall e, never_exits (handler e)) ->
  never_exits (try_except body handler).
Proof.
  intros Hb Hh w c. unfold try_except. specialize (Hb w).
  destruct (body w) as [[a|e|n] w1]; simpl in *; [done | apply Hh | by destruct (Hb n)].
Qed.

Lemma never_exits_when (c : bool) (m : io unit) :
  never_exits m -> never_exits (when c m).
Proof. intros Hm. destruct c; [done | apply never_exits_ret]. Qed.

Lemma never_exits_for_each {A} (l : list A) (body : A -> io unit) :
  (forall x, never_exits (body x)) -> never_exits (for_each l body).
Proof.
  intros Hb. induction l as [|x l IH]; simpl.
  - apply never_exits_ret.
  - apply never_exits_bind; auto.
Qed.

End RunEnds.

Create HintDb never_exits.

#[local] Hint Resolve never_exits_ret never_exits_print never_exits_path_exists
  never_exits_read_text never_exits_write_text never_exits_rmtree
  never_exits_mkdir never_exits_mkdir_parents never_exits_copy2
  never_exits_rename never_exits_rglob never_exits_when never_exits_for_each
  : never_exits.

Lemma never_exits_process_file (self : PlaceholderReplacer) (p : path) :
  never_exits (process_file self p).
Proof.
  intros w c. destruct (process_file_returns self p w) as (b & w' & -> & _). done.
Qed.

Lemma never_exits_create_backup (self : PlaceholderReplacer) :
  never_exits (create_backup self).
Proof.
  unfold create_backup. destruct (negb (backup self)); [auto with never_exits|].
  repeat (apply never_exits_bind; [auto with never_exits | intros ?]).
  apply never_exits_for_each. intros t. unfold backup_target. cbv zeta.
  apply never_exits_bind; [auto with never_exits | intros ?].
  apply never_exits_when.
  repeat (apply never_exits_bind; [auto with never_exits | intros ?]).
  auto with never_exits.
Qed.

Lemma never_exits_update_directory_structure (self : PlaceholderReplacer) :
  never_exits (update_directory_structure self).
Proof.
  unfold update_directory_structure. cbv zeta.
  apply never_exits_bind; [auto with never_exits | intros ?].
  apply never_exits_bind; [auto with never_exits | intros ?].
  apply never_exits_bind; [auto with never_exits | intros ?].
  apply never_exits_bind.
  { apply never_exits_when, never_exits_bind; auto with never_exits. }
  intros ?. apply never_exits_bind; [auto with never_exits | intros l].
  apply never_exits_for_each. intros p.
  apply never_exits_try_except; [|auto with never_exits].
  apply never_exits_bind; [auto with never_exits | intros ?].
  apply never_exits_when, never_exits_bind; auto with never_exits.
Qed.

Lemma never_exits_generate_summary_report (self : PlaceholderReplacer) (stats : Stats) :
  never_exits (generate_summary_report self stats).
Proof.
  unfold generate_summary_report.
  repeat (apply never_exits_bind; [auto with never_exits | intros ?]).
  auto with never_exits.
Qed.


(** ** The include directory and the include paths *)

Section IncludePaths.

Variable name : str.

(** The second loop of [update_directory_structure] on one file. *)
Lemma patch_include_cases (p : path) (w : world) :
  patch_include name p w =
  match files w !! p with
  | None => (Ret tt, say (ErrorUpdatingLine p FileNotFoundError) w)
  | Some Dir => (Ret tt, say (ErrorUpdatingLine p IsADirectoryError) w)
  | Some (Regular f) =>
      if negb (readable f) then
        (Ret tt, say (ErrorUpdatingLine p PermissionError) w)
      else
        match data f with
        | NotUtf8 => (Ret tt, say (ErrorUpdatingLine p UnicodeDecodeError) w)
        | Text s =>
            if contains (u "include/cpp-template") s then
              if negb (writable f) then
                (Ret tt, say (ErrorUpdatingLine p PermissionError) w)
              else
                (Ret tt,
                 say (UpdatedIncludeLine p)
                     (written p f (replace (u "include/cpp-template")
                                           (u "include/" ++ name) s) w))
            else (Ret tt, w)
        end
  end.
Proof.
  unfold patch_include, try_except, bind, read_text. cbv zeta.
  destruct (files w !! p) as [[[d m rd wr]|]|] eqn:E; cbn [readable data writable];
    try reflexivity.
  destruct rd; cbn [negb]; [|reflexivity].
  destruct d as [s|]; [|reflexivity].
  destruct (contains (u "include/cpp-template") s); unfold when; [|reflexivity].
  unfold write_text. rewrite E. cbn [readable data writable].
  destruct wr; reflexivity.
Qed.

(** Closes an outcome of [patch_include] that leaves the files alone. *)
Local Ltac same_case :=
  eexists; split; [reflexivity|]; cbn [say files]; repeat split; done.

(** One round of the loop patches its file and touches no other path. *)
Lemma patch_include_step (p : path) (w : world) :
  exists w', patch_include name p w = (Ret tt, w') /\
    include_patched name (files w !! p) (files w' !! p) /\
    (files w !! p = None -> files w' !! p = None) /\
    (forall q, q <> p -> files w' !! q = files w !! q).
Proof.
  rewrite patch_include_cases. unfold include_patched.
  destruct (files w !! p) as [[[d m rd wr]|]|] eqn:E; cbn [readable data writable];
    [|by same_case..].
  destruct d as [s|]; [destruct (contains (u "include/cpp-template") s)|];
    destruct rd, wr; cbn [negb andb]; try (by same_case).
  eexists. split; [reflexivity|]. cbn [say written files readable writable].
  rewrite lookup_insert_eq. split; [by eexists|]. split; [done|].
  intros q Hq. by rewrite lookup_insert_ne.
Qed.

(** The loop over files that are all different. *)
Lemma patch_include_loop (l : list path) (w : world) :
  NoDup l ->
  exists w', for_each l (patch_include name) w = (Ret tt, w') /\
    (forall q, q ∈ l -> include_patched name (files w !! q) (files w' !! q)) /\
    (forall q, q ∉ l -> files w' !! q = files w !! q) /\
    (forall q, files w !! q = None -> files w' !! q = None).
Proof.
  revert w. induction l as [|p rest IH]; intros w Hnd.
  - exists w. split; [reflexivity|]. split; [by intros q ?%elem_of_nil | done].
  - apply NoDup_cons in Hnd as [Hp Hnd]. simpl. unfold bind at 1.
    destruct (patch_include_step p w) as (w1 & -> & Hpat & Hnone & Hother).
    destruct (IH w1 Hnd) as (w' & Hloop & Hin & Hout & Hnone').
    exists w'. split; [exact Hloop|]. split; [|split].
    + intros q [->|Hq]%elem_of_cons.
      * by rewrite (Hout p Hp).
      * rewrite <- (Hother q) by (by intros ->). by apply Hin.
    + intros q [Hqp Hq]%not_elem_of_cons. rewrite Hout by done. by apply Hother.
    + intros q Hq. apply Hnone'. destruct (decide (q = p)) as [->|Hne];
        [by apply Hnone | by rewrite Hother].
Qed.

(** What [rglob] returns: the paths that exist and are named as asked,
    each once. *)
Lemma rglob_cases (w : world) :
  exists l, rglob (u "CMakeLists.txt") w = (Ret l, w) /\ NoDup l /\
    forall q, q ∈ l <-> is_Some (files w !! q) /\ is_cmake q.
Proof.
  eexists. split; [reflexivity|]. split.
  - apply NoDup_filter, NoDup_fst_map_to_list.
  - intros q. rewrite list_elem_of_filter, list_elem_of_fmap. unfold is_cmake.
    split.
    + intros [Hc ([q' x] & -> & Hx%elem_of_map_to_list)]. split; [eauto | done].
    + intros [[x Hx] Hc]. split; [done|]. exists (q, x). split; [done|].
      by apply elem_of_map_to_list.
Qed.

End IncludePaths.

(** [update_directory_structure] with its second loop named. *)
Lemma update_directory_structure_unfold (self : PlaceholderReplacer) :
  update_directory_structure self =
  (step print CheckingDirectoriesLine;
   do old_present <- path_exists [u "include"; u "cpp-template"];
   do new_present <- path_exists [u "include"; new_name self];
   step when (old_present && negb new_present) (
     step rename [u "include"; u "cpp-template"] [u "include"; new_name self];
     print (RenamedDirectoryLine (new_name self)));
   do cmake_files <- rglob (u "CMakeLists.txt");
   for_each cmake_files (patch_include (new_name self))).
Proof. reflexivity. Qed.

(** X12: where there is no include directory to move (the directory
    include/cpp-template does not exist, or include/<name> exists
    already), [update_directory_structure] moves nothing and returns; it
    creates and removes no path; in every CMakeLists.txt of the tree, at
    any depth and also in the backup directory, that can be read and
    written it replaces the old include path by the new one; and it leaves
    every other path as it is. *)
Theorem include_paths_patched_everywhere (self : PlaceholderReplacer) (w : world) :
  files w !! [u "include"; u "cpp-template"] = None \/
  is_Some (files w !! [u "include"; new_name self]) ->
  exists w',
    update_directory_structure self w = (Ret tt, w') /\
    (forall q, is_cmake q ->
       include_patched (new_name self) (files w !! q) (files w' !! q)) /\
    (forall q, ~ is_cmake q -> files w' !! q = files w !! q) /\
    (forall q, is_Some (files w' !! q) <-> is_Some (files w !! q)).
Proof.
  intros Hskip. rewrite update_directory_structure_unfold.
  set (w0 := say CheckingDirectoriesLine w).
  rewrite (bind_returned _ _ w w0 tt) by reflexivity.
  rewrite (bind_returned _ _ w0 w0
             (bool_decide (is_Some (files w !! [u "include"; u "cpp-template"]))))
    by reflexivity.
  rewrite (bind_returned _ _ w0 w0
             (bool_decide (is_Some (files w !! [u "include"; new_name self]))))
    by reflexivity.
  assert (Hno : bool_decide (is_Some (files w !! [u "include"; u "cpp-template"]))
                && negb (bool_decide (is_Some (files w !! [u "include"; new_name self])))
                = false).
  { destruct Hskip as [Hold | Hnew].
    - rewrite bool_decide_eq_false_2; [done|]. rewrite Hold. by intros [? ?].
    - rewrite (bool_decide_eq_true_2 _ Hnew). apply andb_false_r. }
  rewrite Hno. unfold when at 1.
  rewrite (bind_returned _ _ w0 w0 tt) by reflexivity.
  destruct (rglob_cases w0) as (l & Hglob & Hnd & Hl).
  rewrite (bind_returned _ _ w0 w0 l) by exact Hglob.
  destruct (patch_include_loop (new_name self) l w0 Hnd)
    as (w' & Hloop & Hin & Hout & Hnone).
  change (files w0) with (files w) in *.
  exists w'. split; [exact Hloop|]. split; [|split].
  - intros q Hq. destruct (files w !! q) as [x|] eqn:E.
    + rewrite <- E. apply Hin, Hl. rewrite E. eauto.
    + rewrite (Hnone q E). done.
  - intros q Hq. apply Hout. intros Hin'%Hl. by destruct Hin'.
  - intros q. destruct (decide (q ∈ l)) as [Hq|Hq].
    + specialize (Hin q Hq). apply Hl in Hq as [[x Hx] _]. rewrite Hx in Hin |- *.
      split; [eauto|]. intros _. unfold include_patched in Hin.
      destruct x as [[d m rd wr]|]; cbn [data readable writable] in Hin;
        [|rewrite Hin; eauto].
      destruct d as [s|]; [|rewrite Hin; eauto].
      destruct (rd && wr && contains (u "include/cpp-template") s);
        [destruct Hin as [t ->] | rewrite Hin]; eauto.
    + by rewrite (Hout q Hq).
Qed.

Lemma include_paths_patched_everywhere_witness :
  let w := world_of
    [ ([], Dir);
      ([u "CMakeLists.txt"], plain (u "include_directories(include/my-project)"));
      ([u ".backup_placeholders"], Dir);
      ([u ".backup_placeholders"; u "CMakeLists.txt"],
       plain (u "include_directories(include/cpp-template)")) ] in
  exists w',
    update_directory_structure my_project_replacer w = (Ret tt, w') /\
    include_patched (u "my-project")
      (Some (plain (u "include_directories(include/cpp-template)")))
      (files w' !! [u ".backup_placeholders"; u "CMakeLists.txt"]).
Proof.
  intros w.
  destruct (include_paths_patched_everywhere my_project_replacer w)
    as (w' & Hrun & Hpatched & _).
  - left. vm_compute. reflexivity.
  - exists w'. split; [exact Hrun|].
    apply (Hpatched [u ".backup_placeholders"; u "CMakeLists.txt"]).
    split; [reflexivity | discriminate].
Defined.

Section Rename.

Variables src dst : path.
Variable w : world.

Hypothesis Hlen : length src = length dst.
Hypothesis Hdiff : src <> dst.

Lemma not_below_both (q : path) : below src q = true -> below dst q = false.
Proof.
  intros [r ->]%below_prefix. apply below_false. intros [r' Hr'].
  apply Hdiff. apply (f_equal (take (length src))) in Hr'.
  rewrite take_app_length in Hr'. rewrite Hlen, take_app_length in Hr'. done.
Qed.

(** The moved part of the tree, under its new names. *)
Lemma lookup_moved (q : path) :
  (list_to_map
     (map (fun kv : path * node => (dst ++ drop (length src) kv.1, kv.2))
          (map_to_list (filter (fun kv : path * node => below src kv.1 = true)
                               (files w)))) : gmap path node) !! q
  = match decide (dst `prefix_of` q) with
    | left _ => files w !! (src ++ drop (length dst) q)
    | right _ => None
    end.
Proof.
  set (moved := filter (fun kv : path * node => below src kv.1 = true) (files w)).
  set (rekey := fun kv : path * node => (dst ++ drop (length src) kv.1, kv.2)).
  assert (Hkey : forall k x, (k, x) ∈ map_to_list moved ->
                   files w !! k = Some x /\ exists r, k = src ++ r).
  { intros k x Hin%elem_of_map_to_list.
    apply map_lookup_filter_Some in Hin as [Hk Hb]. split; [done|].
    by apply below_prefix in Hb. }
  assert (Hnd : NoDup ((map rekey (map_to_list moved)).*1)).
  { change ((map rekey (map_to_list moved)).*1)
      with (fst <$> (rekey <$> map_to_list moved)).
    rewrite <- list_fmap_compose.
    apply NoDup_fmap_2_strong; [|apply NoDup_map_to_list].
    intros [k x] [k' x'] Hin Hin' Heq. simpl in Heq.
    destruct (Hkey k x Hin) as [Hx [r ->]].
    destruct (Hkey k' x' Hin') as [Hx' [r' ->]].
    rewrite !drop_app_length in Heq. apply app_inv_head in Heq. subst r'.
    f_equal. congruence. }
  destruct (decide (dst `prefix_of` q)) as [[r ->]|Hnot].
  - rewrite drop_app_length.
    destruct (files w !! (src ++ r)) as [x|] eqn:E.
    + apply elem_of_list_to_map_1; [exact Hnd|].
      apply list_elem_of_fmap. exists (src ++ r, x). split.
      * unfold rekey. simpl. by rewrite drop_app_length.
      * apply elem_of_map_to_list, map_lookup_filter_Some. split; [done|].
        apply below_app.
    + apply not_elem_of_list_to_map_1.
      intros ([k' y] & Hk & ([k x] & Heq & Hin)%list_elem_of_fmap)%list_elem_of_fmap.
      unfold rekey in Heq. simpl in Hk, Heq. injection Heq as -> ->.
      destruct (Hkey k x Hin) as [Hx [r0 ->]].
      rewrite drop_app_length in Hk. apply app_inv_head in Hk. subst r0.
      congruence.
  - apply not_elem_of_list_to_map_1.
    intros ([k' y] & Hk & ([k x] & Heq & Hin)%list_elem_of_fmap)%list_elem_of_fmap.
    unfold rekey in Heq. simpl in Hk, Heq. injection Heq as -> ->.
    apply Hnot. rewrite Hk. by apply prefix_app_r.
Qed.

(** [rename] onto a free name moves the node and all below it. *)
Lemma rename_moves :
  is_Some (files w !! src) ->
  (forall q, below dst q = true -> files w !! q = None) ->
  files w !! parent dst = Some Dir ->
  exists w', rename src dst w = (Ret tt, w') /\
    (forall r, files w' !! (dst ++ r) = files w !! (src ++ r)) /\
    (forall q, below src q = true -> files w' !! q = None) /\
    (forall q, below src q = false -> below dst q = false ->
       files w' !! q = files w !! q).
Proof.
  intros [x Hsrc] Hfree Hparent. unfold rename.
  rewrite Hsrc, (Hfree dst (below_refl dst)), Hparent.
  eexists. split; [reflexivity|]. cbn [set_files files].
  split; [|split].
  - intros r. destruct (files w !! (src ++ r)) as [y|] eqn:E.
    + apply lookup_union_Some_l. rewrite lookup_moved.
      rewrite decide_True by (by apply prefix_app_r).
      by rewrite drop_app_length.
    + rewrite lookup_union_r.
      * rewrite lookup_rmtree_files.
        destruct (below src (dst ++ r)); [done|]. apply Hfree, below_app.
      * rewrite lookup_moved. rewrite decide_True by (by apply prefix_app_r).
        by rewrite drop_app_length.
  - intros q Hq. rewrite lookup_union_r.
    + by rewrite lookup_rmtree_files, Hq.
    + rewrite lookup_moved. rewrite decide_False; [done|].
      apply below_false. by apply not_below_both.
  - intros q Hs Hd. rewrite lookup_union_r.
    + by rewrite lookup_rmtree_files, Hs.
    + rewrite lookup_moved. rewrite decide_False; [done|]. by apply below_false.
Qed.

End Rename.

Section IncludeDirectory.

Variable self : PlaceholderReplacer.

(** The second loop of [update_directory_structure] over what [rglob]
    finds. *)
Lemma patch_every_cmake (w : world) :
  exists w',
    (do cmake_files <- rglob (u "CMakeLists.txt");
     for_each cmake_files (patch_include (new_name self))) w = (Ret tt, w') /\
    (forall q, include_updated (new_name self) q (files w !! q) (files w' !! q)) /\
    (forall q, files w !! q = None -> files w' !! q = None).
Proof.
  destruct (rglob_cases w) as (l & Hglob & Hnd & Hl).
  rewrite (bind_returned _ _ w w l) by exact Hglob.
  destruct (patch_include_loop (new_name self) l w Hnd)
    as (w' & Hloop & Hin & Hout & Hnone).
  exists w'. split; [exact Hloop|]. split; [|exact Hnone].
  intros q. split.
  - intros Hq. destruct (files w !! q) as [x|] eqn:E.
    + rewrite <- E. apply Hin, Hl. rewrite E. eauto.
    + by rewrite (Hnone q E).
  - intros Hq. apply Hout. intros Hin'%Hl. by destruct Hin'.
Qed.

End IncludeDirectory.



(** ** Runs that cannot fail *)

Section Completes.

Lemma always_returns_print (l : line) : always_returns (print l).
Proof. intros w. by eexists _, _. Qed.

Lemma always_returns_bind {A B} (m : io A) (k : A -> io B) :
  always_returns m -> (forall a, always_returns (k a)) -> always_returns (bind m k).
Proof.
  intros Hm Hk w. destruct (Hm w) as (a & w1 & Hmw).
  destruct (Hk a w1) as (b & w2 & Hkw). exists b, w2.
  unfold bind. by rewrite Hmw.
Qed.

Lemma always_returns_when (c : bool) (m : io unit) :
  always_returns m -> always_returns (when c m).
Proof. intros Hm. destruct c; [done|]. intros w. by eexists _, _. Qed.

Lemma always_returns_for_each {A} (l : list A) (body : A -> io unit) :
  (forall x, always_returns (body x)) -> always_returns (for_each l body).
Proof.
  intros Hb. induction l as [|x l IH]; simpl.
  - intros w. by eexists _, _.
  - apply always_returns_bind; auto.
Qed.

Lemma generate_summary_report_returns (self : PlaceholderReplacer) (stats : Stats) :
  always_returns (generate_summary_report self stats).
Proof.
  unfold generate_summary_report.
  repeat (apply always_returns_bind;
          [first [apply always_returns_print
                 | apply always_returns_when, always_returns_print
                 | apply always_returns_for_each; intros ?; apply always_returns_print]
          | intros ?]).
  apply always_returns_when, always_returns_print.
Qed.

Variable self : PlaceholderReplacer.

(** The replacement pass leaves directories directories. *)
Lemma process_loop_keeps_dirs (l : list path) (stats : Stats) (w : world) :
  exists stats' w', process_loop self l stats w = (Ret stats', w') /\
    forall q, files w !! q = Some Dir -> files w' !! q = Some Dir.
Proof.
  revert stats w. induction l as [|p rest IH]; intros stats w.
  - by exists stats, w.
  - simpl. unfold bind.
    destruct (process_file_returns self p w) as (b & w1 & Hpf & _ & Hother).
    assert (Hdir : forall q, files w !! q = Some Dir -> files w1 !! q = Some Dir).
    { intros q Hq. destruct (decide (q = p)) as [->|Hne]; [|by rewrite Hother].
      rewrite process_file_cases, Hq in Hpf. by injection Hpf as _ <-. }
    rewrite Hpf.
    match goal with |- context [process_loop self rest ?st w1] =>
      destruct (IH st w1) as (stats' & w' & Hloop & Hkeep)
    end.
    exists stats', w'. split; [exact Hloop|]. auto.
Qed.

(** In a tree [update_directory_structure] always returns: the move of
    the include directory cannot fail, and an error on one CMakeLists.txt
    is printed and the loop goes on. *)
Lemma update_directory_structure_returns (w : world) :
  well_formed_tree (files w) ->
  exists w', update_directory_structure self w = (Ret tt, w').
Proof.
  intros Htree. rewrite update_directory_structure_unfold.
  set (w0 := say CheckingDirectoriesLine w).
  rewrite (bind_returned _ _ w w0 tt) by reflexivity.
  rewrite (bind_returned _ _ w0 w0
             (bool_decide (is_Some (files w !! [u "include"; u "cpp-template"]))))
    by reflexivity.
  rewrite (bind_returned _ _ w0 w0
             (bool_decide (is_Some (files w !! [u "include"; new_name self]))))
    by reflexivity.
  assert (Hmove : exists w1,
            when (bool_decide (is_Some (files w !! [u "include"; u "cpp-template"]))
                  && negb (bool_decide
                             (is_Some (files w !! [u "include"; new_name self]))))
              (step rename [u "include"; u "cpp-template"]
                      [u "include"; new_name self];
               print (RenamedDirectoryLine (new_name self))) w0
            = (Ret tt, w1)).
  { case_bool_decide as Hold; [|by eexists].
    case_bool_decide as Hnew; [by eexists|]. cbn [andb negb when].
    unfold bind, rename. change (files w0) with (files w).
    destruct Hold as [x Hx]. rewrite Hx.
    destruct (files w !! [u "include"; new_name self]) eqn:E;
      [by destruct Hnew; eauto|].
    change (parent [u "include"; new_name self])
      with (parent [u "include"; u "cpp-template"]).
    rewrite (Htree [u "include"; u "cpp-template"]) by eauto.
    by eexists. }
  destruct Hmove as [w1 Hmove].
  rewrite (bind_returned _ _ w0 w1 tt) by exact Hmove.
  destruct (patch_every_cmake self w1) as (w' & Hpatch & _).
  by exists w'.
Qed.

End Completes.



(** ** When the backup succeeds and when it cannot start *)

Section BackupSucceeds.

(** [mkdir_parents] returns where no file is in the way. *)
Lemma mkdir_from_returns (done todo : path) (w : world) :
  (forall q, q `prefix_of` done ++ todo -> forall f, files w !! q <> Some (Regular f)) ->
  exists w', mkdir_from done todo w = (Ret tt, w') /\
    files w' !! (done ++ todo) = Some Dir.
Proof.
  revert done w. induction todo as [|c todo IH]; intros done w Hfree; simpl.
  - rewrite app_nil_r in *.
    destruct (files w !! done) as [[f|]|] eqn:E.
    + by destruct (Hfree done (reflexivity _) f).
    + by eexists.
    + eexists. split; [reflexivity|]. cbn [set_files files].
      apply lookup_insert_eq.
  - destruct (files w !! done) as [[f|]|] eqn:E.
    + destruct (Hfree done (prefix_app_r _ _ _ (reflexivity _)) f E).
    + specialize (IH (done ++ [c]) w). rewrite <- app_assoc in IH. by apply IH.
    + specialize (IH (done ++ [c]) (set_files (<[done:=Dir]> (files w)) w)).
      rewrite <- app_assoc in IH. apply IH.
      intros q Hq f. cbn [set_files files].
      destruct (decide (q = done)) as [->|Hne].
      * by rewrite lookup_insert_eq.
      * rewrite lookup_insert_ne by done. by apply Hfree.
Qed.

Variable b : str.
Variable targets : list path.
Variable w : world.

Hypothesis Hmirror : mirrorable [b] targets.
Hypothesis Hroot : files w !! [] = Some Dir.
Hypothesis Hreadable :
  forall t, t ∈ targets ->
    files w !! t = None \/
    exists f, files w !! t = Some (Regular f) /\ readable f = true.

(** One round of the loop of [create_backup] returns. *)
Lemma backup_target_returns (copied : list path) (t : path) (w1 : world) :
  t ∈ targets -> t ∉ copied -> (forall t', t' ∈ copied -> t' ∈ targets) ->
  backed_up [b] copied w w1 ->
  exists w2, backup_target [b] t w1 = (Ret tt, w2).
Proof.
  intros Ht Hnew Hsub (Hout & Hdir & Hcopies & Honly).
  destruct Hmirror as (Hwf & Hnodup & Hnest).
  rewrite Forall_forall in Hwf. destruct (Hwf t Ht) as [Htne Htout].
  assert (Hsame : files w1 !! t = files w !! t) by by apply Hout.
  unfold backup_target. cbv zeta.
  destruct (Hreadable t Ht) as [Hnone | (f & Hf & Hr)].
  { rewrite (bind_returned _ _ w1 w1 false)
      by (unfold path_exists; rewrite Hsame, Hnone; reflexivity).
    by eexists. }
  rewrite (bind_returned _ _ w1 w1 true)
    by (unfold path_exists; rewrite Hsame, Hf; reflexivity).
  unfold when.
  destruct (mkdir_from_returns [] (parent ([b] ++ t)) w1) as (w2 & Hmk & Hparent).
  { rewrite app_nil_l, parent_app by done. intros q Hq g Hg.
    destruct q as [|c q]; [rewrite Hout, Hroot in Hg; done|].
    assert (c = b) as -> by (by apply prefix_cons_inv_1 in Hq).
    destruct (Honly (b :: q)) as [Hb | (t' & Hin & _ & [Heq | [_ Hd]])].
    - apply below_prefix. by apply prefix_cons, prefix_nil.
    - eauto.
    - rewrite Hb, Hdir in Hg. done.
    - injection Heq as ->. apply prefix_cons_inv_2 in Hq.
      assert (Hpre : t' `prefix_of` t) by (etrans; [exact Hq | apply parent_prefix]).
      assert (t' = t) by (apply Hnest; auto). subst t'. done.
    - congruence. }
  unfold mkdir_parents. rewrite (bind_returned _ _ w1 w2 tt) by exact Hmk.
  pose proof (mkdir_from_cases [] (parent ([b] ++ t)) w1) as Hadd.
  rewrite Hmk in Hadd.
  assert (Hsrc : files w2 !! t = Some (Regular f)).
  { destruct (Hadd t) as [-> | (Hnone & _)]; [by rewrite Hsame | congruence]. }
  assert (Hdst : files w2 !! ([b] ++ t) = None).
  { destruct (files w2 !! ([b] ++ t)) as [y|] eqn:Ey; [|done]. exfalso.
    destruct (Hadd ([b] ++ t)) as [Heq | (_ & _ & Hpre)].
    - rewrite Ey in Heq. symmetry in Heq.
      destruct (Honly ([b] ++ t) (below_app _ _) (ltac:(eauto)))
        as [Hb | (t' & Hin & _ & [Heq' | [Hpre _]])].
      + destruct t; [done | discriminate Hb].
      + apply app_inv_head in Heq'. subst t'. done.
      + apply prefix_app_inv in Hpre.
        assert (t = t') by (apply Hnest; auto). subst t'. done.
    - rewrite app_nil_l, parent_app in Hpre by done.
      apply prefix_app_inv in Hpre. apply prefix_length in Hpre.
      pose proof (parent_shorter t Htne). lia. }
  assert (Hcopy : exists w3, copy2 t ([b] ++ t) w2 = (Ret tt, w3)).
  { unfold copy2. rewrite Hsrc, Hr, Hdst. cbn [negb]. rewrite Hdst.
    rewrite app_nil_l in Hparent. rewrite Hparent. by eexists. }
  destruct Hcopy as [w3 Hcopy].
  rewrite (bind_returned _ _ w2 w3 tt) by exact Hcopy. by eexists.
Qed.

(** The loop returns. *)
Lemma backup_loop_returns (rest copied : list path) (w1 : world) :
  copied ++ rest = targets ->
  backed_up [b] copied w w1 ->
  exists w2, for_each rest (backup_target [b]) w1 = (Ret tt, w2).
Proof.
  revert copied w1. induction rest as [|t rest IH]; intros copied w1 Hsplit Hinv.
  - by eexists.
  - assert (Hnodup : NoDup targets) by apply Hmirror.
    rewrite <- Hsplit in Hnodup.
    apply NoDup_app in Hnodup as (_ & Hdisj & _).
    assert (Ht : t ∈ targets).
    { rewrite <- Hsplit. apply elem_of_app. right. by left. }
    assert (Hnew : t ∉ copied).
    { intros Hin. apply (Hdisj t Hin). by left. }
    assert (Hsub : forall t', t' ∈ copied -> t' ∈ targets).
    { intros t' Hin. rewrite <- Hsplit. apply elem_of_app. by left. }
    destruct (backup_target_returns copied t w1 Ht Hnew Hsub Hinv) as (w2 & Hstep).
    pose proof (backup_one_step b targets w Hmirror Hroot copied t w1
                  Ht Hnew Hsub Hinv) as Hinv2.
    rewrite Hstep in Hinv2.
    simpl. rewrite (bind_returned _ _ w1 w2 tt) by exact Hstep.
    apply (IH (copied ++ [t])); [by rewrite <- app_assoc | exact Hinv2].
Qed.

End BackupSucceeds.



(** X16: a regular file at the backup path stops a run with the backup
    enabled before anything is changed: [rmtree] raises, [run] prints the
    error and ends the process with status 1, and every file is as it
    was. *)
Theorem file_at_backup_path_stops_run
    (self : PlaceholderReplacer) (w : world) (f : file) :
  backup self = true ->
  files w !! backup_dir self = Some (Regular f) ->
  exists w', run self w = (Exit 1, w') /\ files w' = files w /\
    (ErrorDuringLine NotADirectoryError ∈ out w').
Proof.
  intros Hb Hf. rewrite run_unfold. cbv zeta.
  set (w0 := say CreatingBackupLine
               (say WorkingDirectoryLine (say (StartingLine (new_name self)) w))).
  assert (Hcb : create_backup self
                  (say WorkingDirectoryLine (say (StartingLine (new_name self)) w))
                = (Raise NotADirectoryError, w0)).
  { unfold create_backup. rewrite Hb. cbn [negb].
    rewrite (bind_returned _ _ _ w0 tt) by reflexivity.
    rewrite (bind_returned _ _ w0 w0 true).
    - unfold when, bind, rmtree. change (files w0) with (files w). by rewrite Hf.
    - unfold path_exists. change (files w0) with (files w).
      rewrite bool_decide_eq_true_2 by eauto. reflexivity. }
  rewrite Hcb. unfold run_failed.
  set (w1 := say (ErrorDuringLine NotADirectoryError) w0).
  rewrite (bind_returned _ _ w0 w1 tt) by reflexivity.
  rewrite (bind_returned _ _ w1 w1 true).
  - rewrite Hb. cbn [andb]. unfold when, bind, print, sys_exit.
    eexists. split; [reflexivity|]. split; [reflexivity|].
    subst w1 w0. cbn [say out]. rewrite !elem_of_app, !list_elem_of_singleton. auto.
  - unfold path_exists. change (files w1) with (files w).
    rewrite bool_decide_eq_true_2 by eauto. reflexivity.
Qed.

Lemma file_at_backup_path_stops_run_witness :
  let w := world_of [ ([], Dir); ([u ".backup_placeholders"], plain (u "notes")) ] in
  exists w', run my_project_replacer w = (Exit 1, w') /\ files w' = files w /\
    (ErrorDuringLine NotADirectoryError ∈ out w').
Proof.
  intros w.
  apply (file_at_backup_path_stops_run my_project_replacer w
           (File (Text (u "notes")) 0 true true)).
  - reflexivity.
  - vm_compute. reflexivity.
Defined.
